(** * Slice processing and sample assembly of glacier_mapping

    A shallow embedding of [glacier_mapping/data/process_slices_funs.py]
    and of the path resolution of [src/dataset.py], with the properties
    the specification states about them.

    Conventions of the embedding.
    - Python floats are [fval]: an exact rational, or one of the three
      IEEE special values.  Rounding and overflow of finite values are
      not modelled; comparisons and the special values are.
    - A raised exception is an outcome: functions that can raise return
      a [result].
    - Objects that the code mutates through a reference (the id list
      handed to [random_split], the processing spec handed to
      [postprocess_tile]) live in a store indexed by locations. *)

From Stdlib Require Import ZArith QArith Qround Lia Lqa.
From stdpp Require Import base option list gmap strings pretty.

Local Open Scope string_scope.
Local Open Scope list_scope.
Local Open Scope Z_scope.

(** ** Outcomes *)

(** The exceptions the embedded code can raise.  [FloatingPointError]
    stands for a division by zero inside numpy, and [Unmodelled] for a
    call that leaves the embedded part of the module. *)
Inductive exn : Type :=
| AttributeError (name : string)
| IndexError
| KeyError (key : string)
| TypeError
| OSError
| FileNotFoundError (path : string)
| FloatingPointError
| RecursionError
| Unmodelled (callee : string).

Inductive result (X : Type) : Type :=
| Ret (x : X)
| Raise (e : exn).
Arguments Ret {X} x.
Arguments Raise {X} e.

#[export] Instance result_ret : MRet result := fun X x => Ret x.

#[export] Instance result_bind : MBind result := fun X Y k r =>
  match r with
  | Ret x => k x
  | Raise e => Raise e
  end.

(** [l[i]] for a non-negative [i]. *)
Definition index {X : Type} (l : list X) (i : nat) : result X :=
  match l !! i with
  | Some x => Ret x
  | None => Raise IndexError
  end.

(** ** Python built-ins used by the module *)

Module Py.

(** [int(x)] on a float: truncation toward zero. *)
Definition int (q : Q) : Z := Z.quot (Qnum q) (Zpos (Qden q)).

(** Slice index adjustment for a step of one, as the interpreter does
    it: a negative index counts from the end, and the outcome is
    clamped to [0 .. len]. *)
Definition adjust (len i : Z) : Z :=
  if i <? 0 then Z.max (i + len) 0 else Z.min i len.

(** [l[start:stop]]; [None] is an omitted bound. *)
Definition slice {X : Type} (l : list X) (start stop : option Z) : list X :=
  let len := Z.of_nat (length l) in
  let a := from_option (adjust len) 0 start in
  let b := from_option (adjust len) len stop in
  take (Z.to_nat (b - a)) (drop (Z.to_nat a) l).

(** [np.cumsum] of a one-dimensional array. *)
Fixpoint cumsum_from (acc : Q) (l : list Q) : list Q :=
  match l with
  | [] => []
  | x :: l' => let acc' := (acc + x)%Q in acc' :: cumsum_from acc' l'
  end.

Definition cumsum (l : list Q) : list Q :=
  match l with
  | [] => []
  | x :: l' => x :: cumsum_from x l'
  end.

(** The process-wide random source, as the sequence of raw draws it
    will hand out.  [randbelow n] consumes one draw and returns a value
    below [n]; an exhausted sequence keeps answering 0. *)
Definition rng : Type := list nat.

Definition randbelow (n : nat) (g : rng) : nat * rng :=
  match g with
  | [] => (0%nat, [])
  | r :: g' => ((r mod n)%nat, g')
  end.

(** [x[i], x[j] = x[j], x[i]] *)
Definition swap {X : Type} (x : list X) (i j : nat) : list X :=
  match x !! i, x !! j with
  | Some xi, Some xj => <[j:=xi]> (<[i:=xj]> x)
  | _, _ => x
  end.

(** [random.shuffle(x)]:
    [for i in reversed(range(1, len(x))): j = randbelow(i + 1); swap]. *)
Fixpoint shuffle_down {X : Type} (i : nat) (x : list X) (g : rng)
  : list X * rng :=
  match i with
  | O => (x, g)
  | S i' =>
      let (j, g') := randbelow (S i) g in
      shuffle_down i' (swap x i j) g'
  end.

Definition shuffle {X : Type} (x : list X) (g : rng) : list X * rng :=
  shuffle_down (length x - 1)%nat x g.

End Py.

(** ** Splitter: [random_split] *)

Definition loc : Type := nat.

Record split_ids (X : Type) : Type := SplitIds {
  train : list X;
  dev : list X;
  test : list X
}.
Arguments SplitIds {X} _ _ _.
Arguments train {X} _.
Arguments dev {X} _.
Arguments test {X} _.

Section Splitter.
Context {X : Type}.

(** The state [random_split] acts on: the random source and the store
    holding the caller's lists. *)
Record world : Type := World {
  rand : Py.rng;
  lists : gmap loc (list X)
}.

(** [ix = [int(s) for s in np.cumsum(len(ids) * np.array(split_ratio))]] *)
Definition boundaries (n : nat) (split_ratio : list Q) : list Z :=
  let sizes := map (fun r => (inject_Z (Z.of_nat n) * r)%Q) split_ratio in
  map Py.int (Py.cumsum sizes).

(** [random_split(ids, split_ratio)].  [ids] is a reference; a
    reference that names no object is not a Python state, and the
    embedding answers [None] for it.  The shuffle is committed to the
    store before the boundaries are indexed, so an [IndexError] on a
    ratio sequence shorter than three leaves the list shuffled. *)
Definition random_split (ids : loc) (split_ratio : list Q) (w : world)
  : option (world * result (split_ids X)) :=
  match lists w !! ids with
  | None => None
  | Some x =>
      let (x', g') := Py.shuffle x (rand w) in
      let w' := World g' (<[ids:=x']> (lists w)) in
      let ix := boundaries (length x') split_ratio in
      Some (w',
            i0 ← index ix 0;
            i1 ← index ix 1;
            i2 ← index ix 2;
            Ret (SplitIds (Py.slice x' None (Some i0))
                          (Py.slice x' (Some i0) (Some i1))
                          (Py.slice x' (Some i1) (Some i2))))
  end.

End Splitter.
Arguments world X : clear implicits.

(** ** Floats and arrays *)

Inductive fval : Type :=
| Fin (q : Q)
| NaN
| PInf
| NInf.

Module F.

Definition zero : fval := Fin 0.

Definition sgn (q : Q) : Z := Z.sgn (Qnum q).

Definition neg (x : fval) : fval :=
  match x with
  | Fin a => Fin (- a)
  | NaN => NaN
  | PInf => NInf
  | NInf => PInf
  end.

Definition add (x y : fval) : fval :=
  match x, y with
  | Fin a, Fin b => Fin (a + b)
  | NaN, _ | _, NaN => NaN
  | PInf, NInf | NInf, PInf => NaN
  | PInf, _ | _, PInf => PInf
  | NInf, _ | _, NInf => NInf
  end.

Definition sub (x y : fval) : fval :=
  match x, y with
  | Fin a, Fin b => Fin (a - b)
  | NaN, _ | _, NaN => NaN
  | PInf, PInf | NInf, NInf => NaN
  | PInf, _ | _, NInf => PInf
  | NInf, _ | _, PInf => NInf
  end.

(** An infinity scaled by a number of sign [s]. *)
Definition scale_inf (s : Z) (x : fval) : fval :=
  match s with
  | Z0 => NaN
  | Zpos _ => x
  | Zneg _ => neg x
  end.

Definition mul (x y : fval) : fval :=
  match x, y with
  | Fin a, Fin b => Fin (a * b)
  | NaN, _ | _, NaN => NaN
  | Fin a, inf => scale_inf (sgn a) inf
  | inf, Fin b => scale_inf (sgn b) inf
  | PInf, PInf | NInf, NInf => PInf
  | PInf, NInf | NInf, PInf => NInf
  end.

(** Division; zero is the positive zero, so a finite non-zero number
    over zero is the infinity of its own sign. *)
Definition div (x y : fval) : fval :=
  match x, y with
  | Fin a, Fin b =>
      if Qeq_bool b 0 then scale_inf (sgn a) PInf else Fin (a / b)
  | NaN, _ | _, NaN => NaN
  | Fin _, _ => Fin 0
  | inf, Fin b => if Qeq_bool b 0 then inf else scale_inf (sgn b) inf
  | _, _ => NaN
  end.

(** [x > y]; every comparison with NaN is false. *)
Definition gt (x y : fval) : bool :=
  match x, y with
  | Fin a, Fin b => negb (Qle_bool a b)
  | NaN, _ | _, NaN => false
  | PInf, PInf => false
  | PInf, _ => true
  | NInf, _ => false
  | Fin _, NInf => true
  | Fin _, PInf => false
  end.

Definition is_zero (x : fval) : bool :=
  match x with
  | Fin a => Qeq_bool a 0
  | _ => false
  end.

(** Equality of floats as numbers: rationals up to [Qeq], the special
    values up to identity. *)
Definition eqv (x y : fval) : Prop :=
  match x, y with
  | Fin a, Fin b => (a == b)%Q
  | NaN, NaN | PInf, PInf | NInf, NInf => True
  | _, _ => False
  end.

End F.

Inductive dtype : Type := Float32 | Float64.

(** [np.finfo(dtype).max] *)
Definition finfo_max (dt : dtype) : Q :=
  match dt with
  | Float32 => inject_Z ((2 ^ 24 - 1) * 2 ^ 104)
  | Float64 => inject_Z ((2 ^ 53 - 1) * 2 ^ 971)
  end.

(** A two- or three-dimensional array.  [data] is indexed row, column,
    channel.  [shape2 = None] is a two-dimensional array [(H, W)]: it
    has no channel axis and holds one value per position. *)
Record ndarray : Type := NdArray {
  dt : dtype;
  shape0 : nat;
  shape1 : nat;
  shape2 : option nat;
  data : list (list (list fval))
}.

Definition depth (a : ndarray) : nat := default 1%nat (shape2 a).

Definition well_formed (a : ndarray) : Prop :=
  length (data a) = shape0 a ∧
  Forall (fun row =>
            length row = shape1 a ∧
            Forall (fun px => length px = depth a) row) (data a).

(** [a.shape[2]] *)
Definition shape_2 (a : ndarray) : result nat :=
  match shape2 a with
  | Some c => Ret c
  | None => Raise IndexError
  end.

Definition with_data (a : ndarray) (d : list (list (list fval))) : ndarray :=
  NdArray (dt a) (shape0 a) (shape1 a) (shape2 a) d.

(** The entry at row [r], column [c], channel [k]. *)
Definition entry (a : ndarray) (r c k : nat) : option fval :=
  row ← data a !! r; px ← row !! c; px !! k.

(** [np.zeros((h, w, 1))] *)
Definition np_zeros (h w : nat) : ndarray :=
  NdArray Float64 h w (Some 1%nat) (replicate h (replicate w [F.zero])).

(** ** Normalizer *)

(** [img[:, :, i] = f(img[:, :, i])] *)
Definition on_channel (f : fval -> fval) (i : nat)
    (d : list (list (list fval))) : list (list (list fval)) :=
  map (map (alter f i)) d.

(** [img[:, :, i] /= s].  A zero divisor is what numpy reports through
    its floating-point error state; here it is an outcome of its own. *)
Definition divide_channel (s : fval) (i : nat)
    (d : list (list (list fval))) : result (list (list (list fval))) :=
  if F.is_zero s then Raise FloatingPointError
  else Ret (on_channel (fun x => F.div x s) i d).

(** One turn of the loop of [normalize_]. *)
Definition normalize_channel (means stds : list fval) (i : nat)
    (d : list (list (list fval))) : result (list (list (list fval))) :=
  m ← index means i;
  let d1 := on_channel (fun x => F.sub x m) i d in
  s ← index stds i;
  if F.gt s F.zero then divide_channel s i d1
  else Ret (on_channel (fun _ => F.zero) i d1).

Fixpoint normalize_loop (means stds : list fval) (range : list nat)
    (d : list (list (list fval))) : result (list (list (list fval))) :=
  match range with
  | [] => Ret d
  | i :: range' =>
      d' ← normalize_channel means stds i d;
      normalize_loop means stds range' d'
  end.

Definition normalize_ (img : ndarray) (means stds : list fval)
  : result ndarray :=
  c ← shape_2 img;
  d ← normalize_loop means stds (seq 0 c) (data img);
  Ret (with_data img d).

(** The stats file: [{"means": [...], "stds": [...]}]. *)
Record stats : Type := Stats {
  means : list fval;
  stds : list fval
}.

(** What the code reads from disk. *)
Record files : Type := Files {
  stats_files : gmap string stats;
  array_files : gmap string ndarray
}.

(** [json.load(open(stats_path, "r"))] *)
Definition load_stats (fs : files) (stats_path : string) : result stats :=
  match stats_files fs !! stats_path with
  | Some st => Ret st
  | None => Raise (FileNotFoundError stats_path)
  end.


Definition normalize (fs : files) (img mask : ndarray) (stats_path : string)
  : result (ndarray * ndarray) :=
  st ← load_stats fs stats_path;
  img' ← normalize_ img (means st) (stds st);
  Ret (img', mask).

(** ** Imputer *)

(** [np.nan_to_num(x, nan=value)] on one entry: [posinf] and [neginf]
    are left at their defaults, the largest and the smallest finite
    number of the array's type. *)
Definition nan_to_num_entry (d : dtype) (nan : fval) (x : fval) : fval :=
  match x with
  | Fin q => Fin q
  | NaN => nan
  | PInf => Fin (finfo_max d)
  | NInf => Fin (- finfo_max d)
  end.

Definition nan_to_num (a : ndarray) (nan : fval) : ndarray :=
  with_data a (map (map (map (nan_to_num_entry (dt a) nan))) (data a)).

Definition impute (img mask : ndarray) (value : fval) : ndarray * ndarray :=
  (nan_to_num img value, mask).

(** ** ChannelSelector *)

(** An index into the last axis: what [mask_channels] and
    [img_channels] can hold once they are not [None]. *)
Inductive channel_index : Type :=
| IxInt (k : Z)
| IxList (ks : list Z).

(** numpy's bounds check on one index of an axis of size [c]. *)
Definition norm_index (c : nat) (k : Z) : result nat :=
  if (0 <=? k) && (k <? Z.of_nat c) then Ret (Z.to_nat k)
  else if (- Z.of_nat c <=? k) && (k <? 0) then Ret (Z.to_nat (k + Z.of_nat c))
  else Raise IndexError.

(** [np.arange(c)] *)
Definition arange (c : nat) : list Z := map Z.of_nat (seq 0 c).

(** [a[:, :, ix]].  An integer index drops the channel axis; a list of
    indices keeps it, in the order given. *)
Definition take_channels (a : ndarray) (ix : channel_index) : result ndarray :=
  c ← shape_2 a;
  match ix with
  | IxInt k =>
      j ← norm_index c k;
      Ret (NdArray (dt a) (shape0 a) (shape1 a) None
             (map (map (fun px => [default NaN (px !! j)])) (data a)))
  | IxList ks =>
      js ← mapM (norm_index c) ks;
      Ret (NdArray (dt a) (shape0 a) (shape1 a) (Some (length js))
             (map (map (fun px => map (fun j => default NaN (px !! j)) js))
                  (data a)))
  end.

Definition extract_channel (img mask : ndarray)
    (mask_channels img_channels : option channel_index)
  : result (ndarray * ndarray) :=
  mask_channels ←
    match mask_channels with
    | None => c ← shape_2 mask; Ret (IxList (arange c))
    | Some ix => Ret ix
    end;
  img_channels ←
    match img_channels with
    | None => c ← shape_2 img; Ret (IxList (arange c))
    | Some ix => Ret ix
    end;
  img' ← take_channels img img_channels;
  mask' ← take_channels mask mask_channels;
  Ret (img', mask').

(** ** PostprocessPipeline *)

(** Values a processing spec can carry as step arguments.  A spec is an
    ordered mapping from step names to keyword arguments; as in a
    Python dict, a key occurs once and keeps the place of its first
    insertion. *)
#[warnings="-register-all"]
Inductive pyarg : Type :=
| ANone
| AInt (z : Z)
| AFloat (x : fval)
| AStr (s : string)
| AInts (ks : list Z)
| ASpec (sp : list (string * list (string * pyarg))).

Definition kwargs : Type := list (string * pyarg).
Definition spec : Type := list (string * kwargs).

Module Dict.

(** [d.get(k)] *)
Fixpoint get {V : Type} (d : list (string * V)) (k : string) : option V :=
  match d with
  | [] => None
  | (k', v) :: d' => if String.eqb k' k then Some v else get d' k
  end.

(** [d[k] = v] *)
Fixpoint set {V : Type} (d : list (string * V)) (k : string) (v : V)
  : list (string * V) :=
  match d with
  | [] => [(k, v)]
  | (k', v') :: d' =>
      if String.eqb k' k then (k, v) :: d' else (k', v') :: set d' k v
  end.

Definition keys {V : Type} (d : list (string * V)) : list string := map fst d.

End Dict.

Definition mem (k : string) (ks : list string) : bool :=
  existsb (String.eqb k) ks.

(** Binding [**fun_args] to a signature whose keyword parameters are
    [accepted], of which [required] have no default. *)
Definition bind_kwargs (accepted required : list string) (args : kwargs)
  : result unit :=
  if forallb (fun k => mem k accepted) (Dict.keys args)
     && forallb (fun k => mem k (Dict.keys args)) required
  then Ret tt else Raise TypeError.

(** What a name resolves to in the module's namespace. *)
Inductive attr : Type :=
| FNormalize
| FImpute
| FExtractChannel
| FPostprocess_
| FOther
| NotCallable.

(** The names the source binds at module level, its imports and its
    functions, and the names the import system sets on every module. *)
Definition module_globals : list (string * attr) :=
  [ ("__name__", NotCallable); ("__doc__", NotCallable);
    ("__package__", NotCallable); ("__loader__", NotCallable);
    ("__spec__", NotCallable); ("__file__", NotCallable);
    ("__cached__", NotCallable); ("__builtins__", NotCallable);
    ("Path", FOther); ("copyfile", FOther);
    ("json", NotCallable); ("os", NotCallable); ("random", NotCallable);
    ("sys", NotCallable); ("np", NotCallable);
    ("filter_directory", FOther); ("random_split", FOther);
    ("reshuffle", FOther); ("generate_stats", FOther);
    ("normalize_", FOther); ("normalize", FNormalize);
    ("impute", FImpute); ("extract_channel", FExtractChannel);
    ("postprocess_tile", FOther); ("postprocess_", FPostprocess_);
    ("postprocess", FOther) ].

(** What the code runs in: the files it can read, and the attributes a
    module object inherits from its type ([__class__], [__repr__],
    ...), which depend on the interpreter. *)
Record environment : Type := Environment {
  disk : files;
  inherited : list (string * attr)
}.

(** The attributes of the module; its own names come first. *)
Definition module_dict (env : environment) : list (string * attr) :=
  module_globals ++ inherited env.

(** [getattr(sys.modules[__name__], fun_name)] *)
Definition module_getattr (env : environment) (fun_name : string)
  : result attr :=
  match Dict.get (module_dict env) fun_name with
  | Some f => Ret f
  | None => Raise (AttributeError fun_name)
  end.

(** The processing steps the specification names. *)
Definition step_registry : list string :=
  ["normalize"; "impute"; "extract_channel"].

(** An argument used as a fill value. *)
Definition as_float (v : pyarg) : result fval :=
  match v with
  | AInt z => Ret (Fin (inject_Z z))
  | AFloat x => Ret x
  | _ => Raise TypeError
  end.

(** An argument used as a last-axis index. *)
Definition as_channels (v : pyarg) : result (option channel_index) :=
  match v with
  | ANone => Ret None
  | AInt k => Ret (Some (IxInt k))
  | AInts ks => Ret (Some (IxList ks))
  | _ => Raise IndexError
  end.

(** An argument used as a file name. *)
Definition as_path (v : pyarg) : result string :=
  match v with
  | AStr s => Ret s
  | AInt _ => Raise OSError
  | _ => Raise TypeError
  end.

Section Pipeline.
Variable env : environment.

(** [f(img, mask, **fun_args)] for a resolved [f].  [nested] runs a
    nested pipeline, one frame deeper.  A callable of the module that
    is not a processing step is called all the same; what it then does
    is outside this model. *)
Definition call (nested : ndarray -> ndarray -> spec -> result (ndarray * ndarray))
    (fun_name : string) (f : attr) (img mask : ndarray) (fun_args : kwargs)
  : result (ndarray * ndarray) :=
  match f with
  | FNormalize =>
      _ ← bind_kwargs ["stats_path"] ["stats_path"] fun_args;
      stats_path ← as_path (default ANone (Dict.get fun_args "stats_path"));
      normalize (disk env) img mask stats_path
  | FImpute =>
      _ ← bind_kwargs ["value"] [] fun_args;
      value ← as_float (default (AInt 0) (Dict.get fun_args "value"));
      Ret (impute img mask value)
  | FExtractChannel =>
      _ ← bind_kwargs ["mask_channels"; "img_channels"] [] fun_args;
      mask_channels ←
        as_channels (default ANone (Dict.get fun_args "mask_channels"));
      img_channels ←
        as_channels (default ANone (Dict.get fun_args "img_channels"));
      extract_channel img mask mask_channels img_channels
  | FPostprocess_ =>
      _ ← bind_kwargs ["process_funs"] ["process_funs"] fun_args;
      match default ANone (Dict.get fun_args "process_funs") with
      | ASpec sp => nested img mask sp
      | _ => Raise (AttributeError "items")
      end
  | FOther => Raise (Unmodelled fun_name)
  | NotCallable => Raise TypeError
  end.

(** The loop of [postprocess_] over [process_funs.items()]. *)
Fixpoint run_items (nested : ndarray -> ndarray -> spec -> result (ndarray * ndarray))
    (items : spec) (img mask : ndarray) : result (ndarray * ndarray) :=
  match items with
  | [] => Ret (img, mask)
  | (fun_name, fun_args) :: items' =>
      f ← module_getattr env fun_name;
      '(img', mask') ← call nested fun_name f img mask fun_args;
      run_items nested items' img' mask'
  end.

(** [postprocess_(img, mask, process_funs)], with [frames] the call
    depth the interpreter still allows. *)
Fixpoint postprocess_ (frames : nat) (img mask : ndarray) (process_funs : spec)
  : result (ndarray * ndarray) :=
  match frames with
  | O => Raise RecursionError
  | S frames' => run_items (postprocess_ frames') process_funs img mask
  end.


(** [process_funs.extract_channel.mask_channels = 0] on an
    attribute-style dict: a missing [extract_channel] entry is created
    on the way. *)
Definition set_mask_channels (process_funs : spec) : spec :=
  let step := default [] (Dict.get process_funs "extract_channel") in
  Dict.set process_funs "extract_channel"
           (Dict.set step "mask_channels" (AInt 0)).

(** [postprocess_tile(img, process_funs)].  [process_funs] is a
    reference into the store of spec objects; the assignment goes to
    the object the caller holds. *)
Definition postprocess_tile (frames : nat) (img : ndarray)
    (process_funs : loc) (σ : gmap loc spec)
  : option (gmap loc spec * result (ndarray * ndarray)) :=
  sp ← σ !! process_funs;
  let sp' := set_mask_channels sp in
  let σ' := <[process_funs:=sp']> σ in
  let mask := np_zeros (shape0 img) (shape1 img) in
  Some (σ', postprocess_ frames img mask sp').

End Pipeline.

(** ** SliceCatalog: [filter_directory] *)

(** One row of the slice metadata table.  [mask_mean] holds the
    columns [mask_mean_0], [mask_mean_1], ... in order. *)
Record slice_row : Type := SliceRow {
  img_slice : string;
  mask_slice : string;
  img_mean : fval;
  mask_mean : list fval
}.

(** The table: the number of [mask_mean_k] columns it has, and its
    rows.  A cell a row lacks reads as NaN, the table's missing value. *)
Record data_frame : Type := DataFrame {
  mask_mean_columns : nat;
  rows : list slice_row
}.

Record path_pair : Type := PathPair {
  img : string;
  mask : string
}.

Definition coverage (filter_channel : nat) (d : slice_row) : fval :=
  default NaN (mask_mean d !! filter_channel).

(** [slice_meta[f"mask_mean_{filter_channel}"]]: the column has to
    exist. *)
Definition mask_mean_column (slice_meta : data_frame) (filter_channel : nat)
  : result (slice_row -> fval) :=
  if decide (filter_channel < mask_mean_columns slice_meta)%nat
  then Ret (coverage filter_channel)
  else Raise (KeyError ("mask_mean_" +:+ pretty filter_channel)).

Definition filter_directory (slice_meta : data_frame) (filter_perc : fval)
    (filter_channel : nat) : result (list path_pair) :=
  col ← mask_mean_column slice_meta filter_channel;
  let slice_meta1 := filter (fun d => F.gt (col d) filter_perc = true)
                            (rows slice_meta) in
  let slice_meta2 := filter (fun d => F.gt (img_mean d) F.zero = true)
                            slice_meta1 in
  Ret (map (fun d => PathPair (img_slice d) (mask_slice d)) slice_meta2).

(** The defaults [filter_perc=0.2, filter_channel=1]. *)
Definition filter_perc_default : fval := Fin 0.2.
Definition filter_channel_default : nat := 1.

(** ** SampleAssembler: the paths [GlacierDataset.__getitem__] loads *)

(** The Python values the comparisons of [__getitem__] range over. *)
Inductive pyval : Type :=
| VStr (s : string)
| VBool (b : bool).

Module PyVal.

Definition truthy (v : pyval) : bool :=
  match v with
  | VStr s => negb (String.eqb s "")
  | VBool b => b
  end.

(** [a and b] *)
Definition and (a b : pyval) : pyval := if truthy a then b else a.

(** [a == b]: a string never equals a boolean. *)
Definition eq (a b : pyval) : bool :=
  match a, b with
  | VStr s, VStr t => String.eqb s t
  | VBool x, VBool y => Bool.eqb x y
  | _, _ => false
  end.

(** [a != b] *)
Definition ne (a b : pyval) : bool := negb (eq a b).

End PyVal.

(** [Path(base_dir, p)] *)
Record path : Type := Path {
  base_dir_of : string;
  rel : string
}.

(** The fields of the dataset object that [__getitem__] reads while
    resolving paths, and its catalog: one mapping from column names to
    cells per row. *)
Record GlacierDataset : Type := Dataset {
  base_dir : string;
  catalog : list (gmap string string);
  mode : string;
  use_cropped : bool;
  mask_used : pyval
}.

(** [row[columns]] *)
Definition select (row : gmap string string) (columns : list string)
  : result (list string) :=
  mapM (fun c => match row !! c with
                 | Some v => Ret v
                 | None => Raise (KeyError c)
                 end) columns.

(** The column the mask path is read from. *)
Definition pathes (self : GlacierDataset) : list string :=
  if PyVal.eq (mask_used self) (VStr "actual_debris")
  then ["img_path"; "actual_debris_mask_path"; "border_path"]
  else ["img_path"; "mask_path"; "border_path"].

(** The columns of the cropped variant:
    [elif self.mask_used == ('debris_glaciers' and self.mode != 'train')]. *)
Definition cropped_pathes (self : GlacierDataset) : list string :=
  if PyVal.eq (mask_used self) (VStr "actual_debris")
  then ["cropped_path"; "actual_debris_cropped_label"]
  else if PyVal.eq (mask_used self)
            (PyVal.and (VStr "debris_glaciers")
                       (VBool (PyVal.ne (VStr (mode self)) (VStr "train"))))
  then ["cropped_path"; "actual_debris_cropped_label"]
  else ["cropped_path"; "cropped_label"].

(** Lines 55 to 75 of [__getitem__]: the files the image and the mask
    are then loaded from, [(image_path, mask_path)]. *)
Definition getitem_paths (self : GlacierDataset) (i : nat)
  : result (path * path) :=
  row ← index (catalog self) i;
  cells ← select row (pathes self);
  match cells with
  | [image_path; mask_path; border_path] =>
      let image_path := Path (base_dir self) image_path in
      let mask_path := Path (base_dir self) mask_path in
      if use_cropped self then
        cells' ← select row (cropped_pathes self);
        match cells' with
        | [cropped_img_path; cropped_label_path] =>
            let cropped_img_path := Path (base_dir self) cropped_img_path in
            let cropped_label_path := Path (base_dir self) cropped_label_path in
            Ret (cropped_img_path, cropped_label_path)
        | _ => Raise TypeError
        end
      else Ret (image_path, mask_path)
  | _ => Raise TypeError
  end.

(** The contract the comments of [__getitem__] and of [__init__]
    state: actual-debris labels for [actual_debris], and for the dev
    and test sets of [debris_glaciers]. *)
Definition cropped_pathes_intended (self : GlacierDataset) : list string :=
  if PyVal.eq (mask_used self) (VStr "actual_debris")
  then ["cropped_path"; "actual_debris_cropped_label"]
  else if PyVal.eq (mask_used self) (VStr "debris_glaciers")
          && PyVal.ne (VStr (mode self)) (VStr "train")
  then ["cropped_path"; "actual_debris_cropped_label"]
  else ["cropped_path"; "cropped_label"].

(** ** SampleAssembler: [GlacierDataset.__init__] and [__len__] *)

(** One row of the catalog file: the path cells [__getitem__] reads,
    and the columns the constructor filters on. *)
Record catalog_entry : Type := CatalogEntry {
  cells : gmap string string;
  train_tag : string;
  actual_debris_perc : fval;
  pseudo_debris_perc : fval;
  country_tag : string;
  year_tag : Z
}.

(** The value of [country] or [year]: a string (['all'] by default) or
    a list of admitted values. *)
Inductive selector (A : Type) : Type :=
| SelStr (s : string)
| SelList (values : list A).
Arguments SelStr {A} s.
Arguments SelList {A} values.

(** [x != 'all'] for a selector: a list never equals a string. *)
Definition not_all {A : Type} (sel : selector A) : bool :=
  match sel with
  | SelStr s => negb (String.eqb s "all")
  | SelList _ => true
  end.

(** [series.isin(values)] on one cell. *)
Definition isin {A : Type} `{EqDecision A} (x : A) (values : list A) : bool :=
  bool_decide (x ∈ values).

(** [self.data[self.data.train.isin(['dev', 'test']) | column.isin(sel)]];
    [isin] refuses a plain string. *)
Definition restrict {A : Type} `{EqDecision A} (column : catalog_entry -> A)
    (sel : selector A) (table : list catalog_entry)
  : result (list catalog_entry) :=
  match sel with
  | SelStr _ => Raise TypeError
  | SelList values =>
      Ret (filter (fun d => isin (train_tag d) ["dev"; "test"]
                            || isin (column d) values = true) table)
  end.

(** The arguments of the constructor that decide the rows and the
    channel list. *)
Record init_args : Type := InitArgs {
  arg_base_dir : string;
  arg_channels_to_inc : option (list Z);
  arg_mode : string;
  arg_use_cropped : bool;
  arg_use_elev : bool;
  arg_use_slope : bool;
  arg_mask_used : pyval;
  arg_country : selector string;
  arg_year : selector Z
}.

(** The object the constructor leaves: the rows that are kept, the
    view of them that [__getitem__] resolves paths on, and the channel
    list. *)
Record dataset_object : Type := DatasetObject {
  entries : list catalog_entry;
  paths_view : GlacierDataset;
  channels_to_inc : list Z
}.

(** The rows the mask variant admits. *)
Definition by_mask_used (mask_used : pyval) (mode : string)
    (table : list catalog_entry) : list catalog_entry :=
  if PyVal.eq mask_used (VStr "actual_debris") then
    filter (fun d => F.gt (actual_debris_perc d) F.zero = true) table
  else if PyVal.eq mask_used (VStr "debris_glaciers") then
    let table1 :=
      filter (fun d => F.gt (pseudo_debris_perc d) F.zero = true) table in
    if negb (String.eqb mode "train") then
      filter (fun d => F.gt (actual_debris_perc d) F.zero = true) table1
    else table1
  else table.

(** [GlacierDataset.__init__], on the table [pd.read_csv] returned. *)
Definition init (args : init_args) (table : list catalog_entry)
  : result dataset_object :=
  let data := filter (fun d => train_tag d = arg_mode args) table in
  let data := by_mask_used (arg_mask_used args) (arg_mode args) data in
  data ← (if not_all (arg_country args)
           then restrict country_tag (arg_country args) data
           else Ret data);
  data ← (if not_all (arg_year args)
           then restrict year_tag (arg_year args) data
           else Ret data);
  let channels :=
    match arg_channels_to_inc args with
    | Some l => l
    | None => map Z.of_nat (seq 0 10)
    end in
  let channels := if arg_use_elev args then channels ++ [10] else channels in
  let channels := if arg_use_slope args then channels ++ [11] else channels in
  Ret (DatasetObject data
         (Dataset (arg_base_dir args) (map cells data) (arg_mode args)
                  (arg_use_cropped args) (arg_mask_used args))
         channels).

(** [__len__] *)
Definition len (self : dataset_object) : nat := length (entries self).

(** ** Reshuffler: [reshuffle] *)

(** The files and the directories that exist, by resolved path; a
    file's content is a string. *)
Record filesystem : Type := FileSystem {
  file_contents : gmap string string;
  directories : gset string
}.

(** An action on the file system that can raise; the state it leaves
    is kept when it raises. *)
Definition io (X : Type) : Type := filesystem -> filesystem * result X.

Definition io_ret {X : Type} (x : X) : io X := fun fs => (fs, Ret x).

Definition io_bind {X Y : Type} (m : io X) (k : X -> io Y) : io Y :=
  fun fs =>
    match m fs with
    | (fs', Ret x) => k x fs'
    | (fs', Raise e) => (fs', Raise e)
    end.

Notation "x ⇐ m ; k" := (io_bind m (fun x => k))
  (at level 20, m at level 100, k at level 200, only parsing).

Module OsPath.

Definition sep : Ascii.ascii := Ascii.Ascii true true true true false true false false.

Fixpoint has_sep (p : string) : bool :=
  match p with
  | EmptyString => false
  | String c p' => Ascii.eqb c sep || has_sep p'
  end.

(** [os.path.basename(p)]: what follows the last separator. *)
Fixpoint basename (p : string) : string :=
  match p with
  | EmptyString => EmptyString
  | String c p' =>
      if has_sep p' then basename p'
      else if Ascii.eqb c sep then p' else p
  end.

End OsPath.

Section Reshuffler.

(** How the platform resolves the segments of a path to the one
    absolute path of the file: joining, the working directory, links. *)
Variable resolve : list string -> string.

(** [os.makedirs(Path(output_dir, split_type), exist_ok=True)]: an
    existing directory is accepted, an existing file is not. *)
Definition makedirs (output_dir split_type : string) : io unit :=
  fun fs =>
    let path := resolve [output_dir; split_type] in
    match file_contents fs !! path with
    | Some _ => (fs, Raise OSError)
    | None =>
        (FileSystem (file_contents fs) ({[path]} ∪ directories fs), Ret tt)
    end.

(** [copyfile(source, target)], with [target] already resolved: the
    source has to exist and to be another file than the target, the
    target must not be a directory; an existing target is overwritten. *)
Definition copyfile (source target : string) : io unit :=
  fun fs =>
    match file_contents fs !! resolve [source] with
    | None => (fs, Raise (FileNotFoundError source))
    | Some content =>
        if decide (resolve [source] = target) then (fs, Raise OSError)
        else if decide (target ∈ directories fs) then (fs, Raise OSError)
        else (FileSystem (<[target:=content]> (file_contents fs))
                         (directories fs), Ret tt)
    end.

(** Where a source goes. *)
Definition target_of (output_dir split_type source : string) : string :=
  resolve [output_dir; split_type; OsPath.basename source].

(** One turn of the loop over [["img", "mask"]]. *)
Definition copy_one (output_dir split_type source : string) : io string :=
  let target := target_of output_dir split_type source in
  _ ⇐ copyfile source target;
  io_ret target.

(** One turn of the loop over [range(len(split_ids[split_type]))]. *)
Definition copy_pair (output_dir split_type : string) (p : path_pair)
  : io path_pair :=
  img_target ⇐ copy_one output_dir split_type (img p);
  mask_target ⇐ copy_one output_dir split_type (mask p);
  io_ret (PathPair img_target mask_target).

Fixpoint copy_split (output_dir split_type : string) (pairs : list path_pair)
  : io (list path_pair) :=
  match pairs with
  | [] => io_ret []
  | p :: pairs' =>
      cur_locs ⇐ copy_pair output_dir split_type p;
      locs ⇐ copy_split output_dir split_type pairs';
      io_ret (cur_locs :: locs)
  end.

(** The first loop: one directory per split. *)
Fixpoint make_split_dirs (output_dir : string)
    (split_ids : list (string * list path_pair)) : io unit :=
  match split_ids with
  | [] => io_ret tt
  | (split_type, _) :: split_ids' =>
      _ ⇐ makedirs output_dir split_type;
      make_split_dirs output_dir split_ids'
  end.

(** The second loop: the copies, split by split. *)
Fixpoint copy_splits (output_dir : string)
    (split_ids : list (string * list path_pair))
  : io (list (string * list path_pair)) :=
  match split_ids with
  | [] => io_ret []
  | (split_type, pairs) :: split_ids' =>
      locs ⇐ copy_split output_dir split_type pairs;
      target_locs ⇐ copy_splits output_dir split_ids';
      io_ret ((split_type, locs) :: target_locs)
  end.

(** [reshuffle(split_ids, output_dir)]; [split_ids] maps split names to
    lists of [{"img": ..., "mask": ...}], in the order of the dict. *)
Definition reshuffle (split_ids : list (string * list path_pair))
    (output_dir : string) : io (list (string * list path_pair)) :=
  _ ⇐ make_split_dirs output_dir split_ids;
  copy_splits output_dir split_ids.

End Reshuffler.

(** ** Vocabulary of the properties *)



(** What the specification says one entry of channel [k] becomes under
    a mean [m] and a standard deviation [s]. *)
Definition normalized_entry (m s x : fval) : fval :=
  if F.gt s F.zero then F.div (F.sub x m) s else F.zero.

(** The same, with the statistics looked up by channel. *)
Definition normalized_at (means stds : list fval) (k : nat) (x : fval) : fval :=
  match means !! k, stds !! k with
  | Some m, Some s => normalized_entry m s x
  | _, _ => x
  end.

(** The channels of a pixel after the loop of [normalize_] has visited
    the channels of [range]. *)
Definition visit (means stds : list fval) (range : list nat)
    (px : list fval) : list fval :=
  foldl (fun p i => alter (normalized_at means stds i) i p) px range.

(** The per-channel denormalization [x * std + mean]. *)
Definition denormalized_entry (m s y : fval) : fval :=
  F.add (F.mul y s) m.

Definition denormalized_at (means stds : list fval) (k : nat) (y : fval)
  : fval :=
  match means !! k, stds !! k with
  | Some m, Some s => denormalized_entry m s y
  | _, _ => y
  end.

Definition denormalize_pixel (means stds : list fval) (px : list fval)
  : list fval :=
  imap (denormalized_at means stds) px.

Definition denormalize (a : ndarray) (means stds : list fval) : ndarray :=
  with_data a (map (map (denormalize_pixel means stds)) (data a)).

(** A row passes the filter: coverage strictly above the threshold
    and a strictly positive image mean. *)
Definition passes (filter_perc : fval) (filter_channel : nat) (d : slice_row)
  : Prop :=
  F.gt (coverage filter_channel d) filter_perc = true ∧
  F.gt (img_mean d) F.zero = true.

Definition to_pair (d : slice_row) : path_pair :=
  PathPair (img_slice d) (mask_slice d).

(** The value a spec carries for [extract_channel.mask_channels]. *)
Definition mask_channels_of (process_funs : spec) : option pyarg :=
  args ← Dict.get process_funs "extract_channel";
  Dict.get args "mask_channels".

(** A name the module has no attribute for. *)
Definition unknown_name (env : environment) (fun_name : string) : Prop :=
  Dict.get (module_dict env) fun_name = None.

(** Predicates on floats and on the entries of an array. *)
Definition is_nan (x : fval) : bool :=
  match x with
  | NaN => true
  | _ => false
  end.

Definition finite (x : fval) : Prop := ∃ q, x = Fin q.


(** [a'] holds the channels [ks] of [a], in the order of [ks]; a
    negative index counts from the last channel. *)
Definition selects (a a' : ndarray) (ks : list Z) : Prop :=
  dt a' = dt a ∧ shape0 a' = shape0 a ∧ shape1 a' = shape1 a ∧
  shape2 a' = Some (length ks) ∧
  well_formed a' ∧
  ∀ r col j k,
    ks !! j = Some k →
    entry a' r col j
    = entry a r col (Z.to_nat (k `mod` Z.of_nat (depth a))).

(** [k] is a valid index into an axis of size [c]. *)
Definition in_axis (c : nat) (k : Z) : Prop :=
  - Z.of_nat c ≤ k < Z.of_nat c.

(** The keyword parameters of the three processing steps. *)
Definition parameters_of (fun_name : string) : list string :=
  if String.eqb fun_name "normalize" then ["stats_path"]
  else if String.eqb fun_name "impute" then ["value"]
  else if String.eqb fun_name "extract_channel"
  then ["mask_channels"; "img_channels"]
  else [].

(** The mask [postprocess_tile] makes up, once its channel axis has
    been dropped. *)
Definition flat_zero_mask (h w : nat) : ndarray :=
  NdArray Float64 h w None (replicate h (replicate w [F.zero])).

(** An all-zero array of [h] rows and [w] columns, with a channel
    axis or without. *)
Definition zero_mask (h w : nat) (m : ndarray) : Prop :=
  dt m = Float64 ∧ shape0 m = h ∧ shape1 m = w ∧
  ∃ c, data m = replicate h (replicate w (replicate c F.zero)) ∧
       (shape2 m = Some c ∨ (shape2 m = None ∧ c = 1%nat)).

(** The mask a step hands on: all-zero if it was, and without a
    channel axis if it was. *)
Definition hands_on (h w : nat) (mask : ndarray) (r : ndarray * ndarray)
  : Prop :=
  zero_mask h w mask →
  zero_mask h w r.2 ∧ (shape2 mask = None → shape2 r.2 = None).

(** The cell of a column, empty when the row lacks it. *)
Definition cell (row : gmap string string) (column : string) : string :=
  default "" (row !! column).

(** The column [__getitem__] takes the mask file from, for a mask
    variant given as a string. *)
Definition mask_column (variant : string) (cropped : bool) : string :=
  if String.eqb variant "actual_debris"
  then (if cropped then "actual_debris_cropped_label"
        else "actual_debris_mask_path")
  else (if cropped then "cropped_label" else "mask_path").

(** The columns [__getitem__] reads in every configuration. *)
Definition path_columns : list string :=
  ["img_path"; "mask_path"; "border_path"; "actual_debris_mask_path";
   "cropped_path"; "cropped_label"; "actual_debris_cropped_label"].

(** How the stages of the constructor narrow the table. *)
Definition selected {A : Type} `{EqDecision A} (column : catalog_entry -> A)
    (sel : selector A) (before after : list catalog_entry) : Prop :=
  (not_all sel = false ∧ after = before) ∨
  (∃ values, sel = SelList values ∧
     after = filter (fun d => isin (train_tag d) ["dev"; "test"]
                              || isin (column d) values = true) before).

(** The sources of a split assignment in the order [reshuffle] copies
    them, each with its split; where they go; and the mapping the
    function is to return. *)
Definition pair_sources (split_type : string) (p : path_pair)
  : list (string * string) :=
  [(split_type, img p); (split_type, mask p)].

Definition flat_sources (split_ids : list (string * list path_pair))
  : list (string * string) :=
  flat_map (fun '(split_type, pairs) =>
              flat_map (pair_sources split_type) pairs) split_ids.

Definition targets (resolve : list string -> string) (output_dir : string)
    (sources : list (string * string)) : list string :=
  map (fun '(split_type, source) =>
         target_of resolve output_dir split_type source) sources.

Definition locations (resolve : list string -> string) (output_dir : string)
    (split_ids : list (string * list path_pair))
  : list (string * list path_pair) :=
  map (fun '(split_type, pairs) =>
         (split_type,
          map (fun p => PathPair
                          (target_of resolve output_dir split_type (img p))
                          (target_of resolve output_dir split_type (mask p)))
              pairs)) split_ids.

(** The copies of [reshuffle] as one loop over the sources. *)
Fixpoint copy_flat (resolve : list string -> string) (output_dir : string)
    (sources : list (string * string)) : io unit :=
  match sources with
  | [] => io_ret tt
  | (split_type, source) :: sources' =>
      _ ⇐ copy_one resolve output_dir split_type source;
      copy_flat resolve output_dir sources'
  end.

(** Two runs end in the same state, both returning or both raising the
    same exception. *)
Definition same_outcome {X Y : Type} (a : filesystem * result X)
    (b : filesystem * result Y) : Prop :=
  a.1 = b.1 ∧
  match a.2, b.2 with
  | Ret _, Ret _ => True
  | Raise e, Raise e' => e = e'
  | _, _ => False
  end.

(** ** Example data *)

(** A store with one list of ids, and a random source. *)
Definition ids_example : world nat :=
  World [3; 1; 4; 1]%nat {[ 0%nat := [10; 20; 30; 40; 50]%nat ]}.

(** A 1 x 2 image of two channels, and statistics whose second
    channel has no variance. *)
Definition img_example : ndarray :=
  NdArray Float64 1 2 (Some 2%nat)
    [[ [Fin 3; Fin 7]; [Fin 5; NaN] ]].

Definition means_example : list fval := [Fin 1; Fin 7].
Definition stds_example : list fval := [Fin 2; Fin 0].
Definition stds_positive_example : list fval := [Fin 2; Fin 0.5].

(** A metadata table: coverage exactly at the default threshold, just
    above it, and a tile whose image mean is zero. *)
Definition slice_meta_example : data_frame :=
  DataFrame 2
    [ SliceRow "img_0.npy" "mask_0.npy" (Fin 1) [Fin 0.5; Fin 0.2];
      SliceRow "img_1.npy" "mask_1.npy" (Fin 1) [Fin 0.5; Fin 0.2000001];
      SliceRow "img_2.npy" "mask_2.npy" (Fin 0) [Fin 0.5; Fin 0.9] ].

(** A catalog of one row, read by a dev-set dataset under the
    debris-glaciers policy with cropped variants on. *)
Definition catalog_row_example : gmap string string :=
  {[ "img_path" := "img/0.npy";
     "mask_path" := "mask/0.npy";
     "border_path" := "border/0.npy";
     "actual_debris_mask_path" := "debris/0.npy";
     "cropped_path" := "crop/img_0.npy";
     "cropped_label" := "crop/label_0.npy";
     "actual_debris_cropped_label" := "crop/debris_label_0.npy" ]}.

Definition dataset_example (mode : string) : GlacierDataset :=
  Dataset "/data" [catalog_row_example] mode true (VStr "debris_glaciers").

(** An environment with no files on disk, and the attributes a module
    object inherits in a current interpreter; none of them can be
    called with an image and a mask. *)
Definition env_example : environment :=
  Environment (Files ∅ ∅)
    (map (fun name => (name, FOther))
       ["__class__"; "__delattr__"; "__dir__"; "__eq__"; "__format__";
        "__ge__"; "__getattribute__"; "__getstate__"; "__gt__"; "__hash__";
        "__init__"; "__init_subclass__"; "__le__"; "__lt__"; "__ne__";
        "__new__"; "__reduce__"; "__reduce_ex__"; "__repr__"; "__setattr__";
        "__sizeof__"; "__str__"; "__subclasshook__"]
     ++ [("__dict__", NotCallable); ("__annotations__", NotCallable)]).

(** A spec whose only step is the pipeline's own helper, and a spec
    with a step name the module does not have. *)
Definition spec_helper_as_step : spec :=
  [("postprocess_", [("process_funs", ASpec [])])].

Definition spec_unknown_step : spec :=
  [("impute", [("value", AInt 0)]); ("standardize", []);
   ("extract_channel", [])].

(** A spec that selects two mask channels, held by the caller at
    location 0. *)
Definition spec_two_mask_channels : spec :=
  [("impute", []);
   ("extract_channel", [("mask_channels", AInts [0; 1])])].

Definition spec_store_example : gmap loc spec :=
  {[ 0%nat := spec_two_mask_channels ]}.

(** A store whose list of ids is empty. *)
Definition ids_empty_example : world nat :=
  World [3]%nat {[ 0%nat := [] ]}.

(** A table with a row whose coverage cell is missing. *)
Definition slice_meta_nan_example : data_frame :=
  DataFrame 2
    [ SliceRow "img_0.npy" "mask_0.npy" (Fin 1) [Fin 0.5];
      SliceRow "img_1.npy" "mask_1.npy" (Fin 1) [Fin 0.5; Fin 0.3];
      SliceRow "img_2.npy" "mask_2.npy" NaN [Fin 0.5; Fin 0.9] ].

(** A stats file on disk. *)
Definition files_example : files :=
  Files {[ "stats.json" := Stats means_example stds_example ]} ∅.


Definition img_normalized_example : ndarray :=
  NdArray Float64 1 2 (Some 2%nat)
    [[ [Fin (2 # 2); Fin 0]; [Fin (4 # 2); Fin 0] ]].

(** A spec of steps that leave the mask alone. *)
Definition spec_normalize_impute : spec :=
  [("normalize", [("stats_path", AStr "stats.json")]);
   ("impute", [("value", AInt 0)])].

Definition env_stats_example : environment :=
  Environment files_example [].

(** A catalog table with a training row and two dev rows, one of them
    without actual debris. *)
Definition table_example : list catalog_entry :=
  [ CatalogEntry catalog_row_example "train" (Fin 0) (Fin 0.3) "nepal" 2010;
    CatalogEntry catalog_row_example "dev" (Fin 0.1) (Fin 0.2) "bhutan" 2005;
    CatalogEntry catalog_row_example "dev" (Fin 0) (Fin 0.4) "nepal" 2010 ].

Definition init_args_example (mode : string) (country : selector string)
  : init_args :=
  InitArgs "/data" None mode true true true (VStr "debris_glaciers")
           country (SelStr "all").

(** A platform that resolves against the root, a disk with an image
    and a mask of the same base name, and a split that holds them. *)
Definition resolve_example (segments : list string) : string :=
  foldr (fun seg rest => "/" +:+ seg +:+ rest) "" segments.

Definition disk_example : filesystem :=
  FileSystem {[ "/imgs/0.npy" := "image bytes";
                "/masks/0.npy" := "mask bytes";
                "/imgs/1.npy" := "image one";
                "/masks/m1.npy" := "mask one" ]} ∅.

Definition split_collision_example : list (string * list path_pair) :=
  [("train", [PathPair "imgs/0.npy" "masks/0.npy"])].

Definition split_distinct_example : list (string * list path_pair) :=
  [("train", [PathPair "imgs/1.npy" "masks/m1.npy"]); ("dev", [])].

Definition split_missing_example : list (string * list path_pair) :=
  [("train", [PathPair "imgs/1.npy" "masks/m1.npy";
              PathPair "imgs/9.npy" "masks/9.npy"])].

(** * Properties *)

(** ** The random source and the shuffle *)

Section ShuffleFacts.
Context {X : Type}.
Implicit Types x : list X.

Lemma swap_length x i j : length (Py.swap x i j) = length x.
Proof.
  unfold Py.swap.
  destruct (x !! i), (x !! j); rewrite ?length_insert; reflexivity.
Qed.

Lemma swap_perm x i j : Py.swap x i j ≡ₚ x.
Proof.
  unfold Py.swap.
  destruct (x !! i) as [xi|] eqn:Hi; [|reflexivity].
  destruct (x !! j) as [xj|] eqn:Hj; [|reflexivity].
  by apply Permutation_insert_swap.
Qed.

Lemma shuffle_down_perm i x g : (Py.shuffle_down i x g).1 ≡ₚ x.
Proof.
  revert x g. induction i as [|i IH]; intros x g; simpl; [reflexivity|].
  destruct (Py.randbelow (S (S i)) g) as [j g'].
  rewrite IH. apply swap_perm.
Qed.

Lemma shuffle_perm x g : (Py.shuffle x g).1 ≡ₚ x.
Proof. apply shuffle_down_perm. Qed.

Lemma shuffle_length x g : length (Py.shuffle x g).1 = length x.
Proof. apply Permutation_length, shuffle_perm. Qed.

(** The draws stay inside the list: the swap of the shuffle never
    takes its out-of-range branch. *)
Lemma randbelow_lt n g : (0 < n)%nat → ((Py.randbelow n g).1 < n)%nat.
Proof.
  intros Hn. destruct g as [|r g]; simpl; [done|].
  apply Nat.mod_upper_bound. lia.
Qed.

End ShuffleFacts.

(** ** Slices *)

Section SliceFacts.
Context {X : Type}.
Implicit Types l : list X.






End SliceFacts.

(** ** Truncation *)





(** ** Splitter *)

Section SplitterFacts.
Context {X : Type}.
Implicit Types (w : world X) (x : list X) (s : split_ids X).

Lemma boundaries_three (n : nat) (r1 r2 r3 : Q) :
  boundaries n [r1; r2; r3]
  = let k := inject_Z (Z.of_nat n) in
    [Py.int (k * r1); Py.int (k * r1 + k * r2);
     Py.int (k * r1 + k * r2 + k * r3)]%Q.
Proof. reflexivity. Qed.

(** What [random_split] does to the state, whatever the ratios. *)
Lemma random_split_state w ids x ratios :
  lists w !! ids = Some x →
  let x' := (Py.shuffle x (rand w)).1 in
  let ix := boundaries (length x) ratios in
  random_split ids ratios w
  = Some (World (Py.shuffle x (rand w)).2 (<[ids:=x']> (lists w)),
          i0 ← index ix 0;
          i1 ← index ix 1;
          i2 ← index ix 2;
          Ret (SplitIds (Py.slice x' None (Some i0))
                        (Py.slice x' (Some i0) (Some i1))
                        (Py.slice x' (Some i1) (Some i2)))).
Proof.
  intros Hx. unfold random_split. rewrite Hx.
  pose proof (shuffle_length x (rand w)) as Hlen.
  destruct (Py.shuffle x (rand w)) as [x' g'] eqn:Hsh.
  cbn [fst snd] in *. by rewrite Hlen.
Qed.



End SplitterFacts.



(** The shuffle does move entries: one draw of 0 exchanges a list of
    two. *)
Example shuffle_two : Py.shuffle [1; 2]%nat [0%nat] = ([2; 1]%nat, []).
Proof. reflexivity. Qed.


(** ** Floats *)

Lemma eqv_refl (x : fval) : F.eqv x x.
Proof. destruct x; simpl; done. Qed.

Lemma gt_zero_not_zero (s : fval) : F.gt s F.zero = true → F.is_zero s = false.
Proof.
  destruct s as [a| | |]; simpl; try done.
  intros H%negb_true_iff.
  destruct (Qeq_bool a 0) eqn:He; [|done].
  apply Qeq_bool_eq in He.
  assert (Qle_bool a 0 = true) by (apply Qle_bool_iff; rewrite He; apply Qle_refl).
  congruence.
Qed.

Lemma gt_zero_fin (q : Q) : F.gt (Fin q) F.zero = true ↔ (0 < q)%Q.
Proof.
  simpl. rewrite negb_true_iff. split.
  - intros H. apply Qnot_le_lt. intros Hle.
    apply Qle_bool_iff in Hle. congruence.
  - intros H. destruct (Qle_bool q 0) eqn:Hle; [|done].
    apply Qle_bool_iff in Hle. by apply Qlt_not_le in H.
Qed.

Lemma sgn_pos (q : Q) : (0 < q)%Q → ∃ p, F.sgn q = Zpos p.
Proof.
  destruct q as [n d]. unfold Qlt, F.sgn; simpl. intros H.
  destruct n as [|p|p]; try lia. by exists 1%positive.
Qed.

(** Normalizing and denormalizing one entry under finite statistics
    with a positive deviation gives the entry back. *)
Lemma denormalize_normalize_entry (qm qs : Q) (x : fval) :
  (0 < qs)%Q →
  F.eqv (denormalized_entry (Fin qm) (Fin qs)
           (normalized_entry (Fin qm) (Fin qs) x)) x.
Proof.
  intros Hs. unfold normalized_entry, denormalized_entry.
  rewrite (proj2 (gt_zero_fin qs) Hs).
  assert (Hne : ¬ (qs == 0)%Q) by (intros He; rewrite He in Hs; by apply Qlt_irrefl in Hs).
  assert (Hb : Qeq_bool qs 0 = false).
  { destruct (Qeq_bool qs 0) eqn:He; [|done]. by apply Qeq_bool_eq in He. }
  destruct (sgn_pos qs Hs) as [p Hp].
  destruct x as [a| | |]; simpl;
    repeat (rewrite ?Hb, ?Hp; simpl); try done.
  field. done.
Qed.

(** ** Normalizer *)

Section NormalizerFacts.
Implicit Types (d : list (list (list fval))) (px : list fval).

Lemma on_channel_compose (f g : fval → fval) i d :
  on_channel g i (on_channel f i d) = on_channel (g ∘ f) i d.
Proof.
  unfold on_channel. rewrite map_map. apply map_ext; intros row.
  rewrite map_map. apply map_ext; intros px.
  apply list_alter_alter_eq.
Qed.

Lemma on_channel_ext (f g : fval → fval) i d :
  (∀ x, f x = g x) → on_channel f i d = on_channel g i d.
Proof.
  intros Hfg. unfold on_channel.
  apply map_ext; intros row. apply map_ext; intros px.
  apply list_alter_ext; [auto|done].
Qed.

(** One turn of the loop, for a channel that has statistics. *)
Lemma normalize_channel_ok means stds i d :
  is_Some (means !! i) → is_Some (stds !! i) →
  normalize_channel means stds i d
  = Ret (on_channel (normalized_at means stds i) i d).
Proof.
  intros [m Hm] [s Hs]. unfold normalize_channel, index.
  rewrite Hm, Hs. cbn [mbind result_bind].
  unfold divide_channel.
  destruct (F.gt s F.zero) eqn:Hgt.
  - rewrite (gt_zero_not_zero s Hgt), on_channel_compose. f_equal.
    apply on_channel_ext; intros x.
    unfold normalized_at, normalized_entry. by rewrite Hm, Hs, Hgt.
  - rewrite on_channel_compose. f_equal.
    apply on_channel_ext; intros x.
    unfold normalized_at, normalized_entry. by rewrite Hm, Hs, Hgt.
Qed.

Lemma visit_cons means stds i range px :
  visit means stds (i :: range) px
  = visit means stds range (alter (normalized_at means stds i) i px).
Proof. reflexivity. Qed.

Lemma normalize_loop_ok means stds range d :
  Forall (fun i => is_Some (means !! i) ∧ is_Some (stds !! i)) range →
  normalize_loop means stds range d
  = Ret (map (map (visit means stds range)) d).
Proof.
  intros Hr. revert d. induction Hr as [|i range [Hm Hs] _ IH]; intros d.
  - simpl. f_equal. rewrite <- (map_id d) at 1.
    apply map_ext; intros row. by rewrite map_id.
  - simpl. rewrite normalize_channel_ok by done.
    cbn [mbind result_bind]. rewrite IH. f_equal.
    unfold on_channel. rewrite map_map. apply map_ext; intros row.
    by rewrite map_map.
Qed.

Lemma visit_length means stds range px :
  length (visit means stds range px) = length px.
Proof.
  revert px. induction range as [|i range IH]; intros px; [done|].
  by rewrite visit_cons, IH, length_alter.
Qed.

Lemma visit_lookup means stds range px k :
  NoDup range →
  visit means stds range px !! k
  = if decide (k ∈ range) then normalized_at means stds k <$> px !! k
    else px !! k.
Proof.
  intros Hnd. revert px.
  induction Hnd as [|i range Hi _ IH]; intros px.
  - cbn [visit foldl]. case_decide as Hk; [|done].
    by apply not_elem_of_nil in Hk.
  - rewrite visit_cons, IH.
    destruct (decide (k = i)) as [->|Hki].
    + rewrite (decide_False (P:=i ∈ range)) by done.
      rewrite (decide_True (P:=i ∈ i :: range)) by (apply elem_of_cons; by left).
      apply list_lookup_alter_eq.
    + rewrite list_lookup_alter_ne by done.
      repeat case_decide; try done.
      * exfalso. rewrite elem_of_cons in *. tauto.
      * exfalso. rewrite elem_of_cons in *. tauto.
Qed.

Lemma entry_map (a : ndarray) (f : list fval → list fval) r c k :
  entry (with_data a (map (map f) (data a))) r c k
  = (row ← data a !! r; px ← row !! c; f px !! k).
Proof.
  unfold entry, with_data; cbn [data].
  change (map (map f) (data a)) with (fmap (M:=list) (map f) (data a)).
  rewrite list_lookup_fmap.
  destruct (data a !! r) as [row|]; [|done]. cbn.
  change (map f row) with (fmap (M:=list) f row).
  rewrite list_lookup_fmap. by destruct (row !! c).
Qed.

(** [normalize_] returns for every image whose channels all have a
    mean and a deviation, and every entry of a channel below the
    channel count is the normalized one. *)
Lemma normalize_entries (img : ndarray) means stds (c : nat) :
  shape2 img = Some c →
  length means = c → length stds = c →
  ∃ img',
    normalize_ img means stds = Ret img' ∧
    dt img' = dt img ∧ shape0 img' = shape0 img ∧
    shape1 img' = shape1 img ∧ shape2 img' = shape2 img ∧
    ∀ r col k,
      entry img' r col k
      = (if decide (k < c)%nat then normalized_at means stds k else id)
          <$> entry img r col k.
Proof.
  intros Hc Hm Hs. unfold normalize_, shape_2. rewrite Hc.
  cbn [mbind result_bind].
  rewrite normalize_loop_ok.
  2:{ apply Forall_forall. intros i Hi%elem_of_seq.
      split; apply lookup_lt_is_Some; lia. }
  cbn [mbind result_bind]. eexists; split; [reflexivity|].
  split_and!; try done.
  intros r col k. rewrite entry_map. unfold entry.
  destruct (data img !! r) as [row|]; [|done]. cbn.
  destruct (row !! col) as [px|]; [|done]. cbn.
  rewrite visit_lookup by apply NoDup_seq.
  destruct (decide (k < c)%nat) as [Hk|Hk].
  - rewrite decide_True; [done|]. apply elem_of_seq. lia.
  - rewrite decide_False; [by destruct (px !! k)|].
    intros ?%elem_of_seq. lia.
Qed.

End NormalizerFacts.

(** C3: given one mean and one deviation per channel, [normalize_]
    returns; entry [x] of channel [k] becomes [(x - means[k]) / stds[k]]
    when [stds[k] > 0] and exactly 0 otherwise.  No turn of the loop
    divides by zero: that outcome would be [FloatingPointError]. *)
Theorem normalize_channelwise (img : ndarray) (means stds : list fval) (c : nat) :
  shape2 img = Some c →
  length means = c → length stds = c →
  ∃ img',
    normalize_ img means stds = Ret img' ∧
    normalize_ img means stds ≠ Raise FloatingPointError ∧
    ∀ r col k x m s,
      entry img r col k = Some x →
      means !! k = Some m → stds !! k = Some s →
      entry img' r col k
      = Some (if F.gt s F.zero then F.div (F.sub x m) s else Fin 0) ∧
      (F.gt s F.zero = false → entry img' r col k = Some (Fin 0)).
Proof.
  intros Hc Hm Hs.
  destruct (normalize_entries img means stds c Hc Hm Hs)
    as (img' & Hrun & _ & _ & _ & _ & Hent).
  exists img'. split; [done|]. split; [by rewrite Hrun|].
  intros r col k x m s Hx Hmk Hsk.
  assert (Hk : (k < c)%nat) by (apply lookup_lt_Some in Hmk; lia).
  rewrite Hent, Hx, decide_True by done. cbn.
  unfold normalized_at, normalized_entry. rewrite Hmk, Hsk.
  split; [done|]. by intros ->.
Qed.

Lemma normalize_channelwise_witness :
  shape2 img_example = Some 2%nat ∧
  length means_example = 2%nat ∧ length stds_example = 2%nat ∧
  ∃ img', normalize_ img_example means_example stds_example = Ret img' ∧
          entry img' 0 1 1 = Some (Fin 0).
Proof.
  split_and!; [reflexivity..|].
  destruct (normalize_channelwise img_example means_example stds_example 2
              eq_refl eq_refl eq_refl) as (img' & Hrun & _ & Hent).
  exists img'. split; [done|].
  apply (Hent 0 1 1 NaN (Fin 7) (Fin 0))%nat; reflexivity.
Defined.

(** The wrapper [normalize] reads the statistics and hands the mask
    back as it got it. *)
Lemma normalize_mask_unchanged (fs : files) (img mask : ndarray) stats_path r :
  normalize fs img mask stats_path = Ret r → r.2 = mask.
Proof.
  unfold normalize. destruct (load_stats fs stats_path) as [st|]; [|done].
  cbn. destruct (normalize_ img (means st) (stds st)); [|done].
  cbn. by intros [= <-].
Qed.

Lemma entry_denormalize (a : ndarray) means stds r c k :
  entry (denormalize a means stds) r c k
  = denormalized_at means stds k <$> entry a r c k.
Proof.
  unfold denormalize. rewrite entry_map. unfold entry.
  destruct (data a !! r) as [row|]; [|done]. cbn.
  destruct (row !! c) as [px|]; [|done]. cbn.
  unfold denormalize_pixel. apply list_lookup_imap.
Qed.

(** C4: when every deviation is a positive number and every mean a
    number, denormalizing what [normalize_] returns gives every entry
    of the image back, position by position. *)
Theorem denormalize_normalize (img : ndarray) (means stds : list fval) (c : nat) :
  shape2 img = Some c →
  length means = c → length stds = c →
  Forall (fun m => ∃ q, m = Fin q) means →
  Forall (fun s => ∃ q, s = Fin q ∧ (0 < q)%Q) stds →
  ∃ img',
    normalize_ img means stds = Ret img' ∧
    shape0 (denormalize img' means stds) = shape0 img ∧
    shape1 (denormalize img' means stds) = shape1 img ∧
    shape2 (denormalize img' means stds) = shape2 img ∧
    ∀ r col k,
      option_Forall2 F.eqv (entry (denormalize img' means stds) r col k)
                     (entry img r col k).
Proof.
  intros Hc Hm Hs Hmeans Hstds.
  destruct (normalize_entries img means stds c Hc Hm Hs)
    as (img' & Hrun & _ & H0 & H1 & H2 & Hent).
  exists img'. split_and!; try done.
  intros r col k. rewrite entry_denormalize, Hent.
  destruct (entry img r col k) as [x|]; [|constructor]. cbn.
  constructor. unfold denormalized_at.
  destruct (decide (k < c)%nat) as [Hk|Hk].
  - destruct (lookup_lt_is_Some_2 means k ltac:(lia)) as [m Hmk].
    destruct (lookup_lt_is_Some_2 stds k ltac:(lia)) as [s Hsk].
    rewrite Forall_forall in Hmeans, Hstds.
    destruct (Hmeans m) as [qm ->]; [by eapply list_elem_of_lookup_2|].
    destruct (Hstds s) as (qs & -> & Hpos); [by eapply list_elem_of_lookup_2|].
    unfold normalized_at. rewrite Hmk, Hsk.
    by apply denormalize_normalize_entry.
  - rewrite (lookup_ge_None_2 means k) by lia. apply eqv_refl.
Qed.

Lemma denormalize_normalize_witness :
  shape2 img_example = Some 2%nat ∧
  length means_example = 2%nat ∧ length stds_positive_example = 2%nat ∧
  ∃ img',
    normalize_ img_example means_example stds_positive_example = Ret img' ∧
    option_Forall2 F.eqv
      (entry (denormalize img' means_example stds_positive_example) 0 0 1)
      (entry img_example 0 0 1).
Proof.
  split_and!; [reflexivity..|].
  assert (Hm : Forall (fun m => ∃ q, m = Fin q) means_example).
  { repeat constructor; eexists; reflexivity. }
  assert (Hs : Forall (fun s => ∃ q, s = Fin q ∧ (0 < q)%Q)
                 stds_positive_example).
  { repeat constructor; eexists; (split; [reflexivity|by vm_compute]). }
  destruct (denormalize_normalize img_example means_example
              stds_positive_example 2 eq_refl eq_refl eq_refl Hm Hs)
    as (img' & Hrun & _ & _ & _ & Hent).
  exists img'. split; [done|]. apply Hent.
Defined.

(** ** Imputer *)

(** C10: [impute] leaves the finite entries of the image alone,
    replaces NaN by [value], and replaces the two infinities as well,
    by the largest finite number of the array's type and its opposite.
    The mask comes back as it went in. *)
Theorem impute_replaces_nan_and_infinities (img mask : ndarray) (value : fval) :
  (impute img mask value).2 = mask ∧
  shape0 (impute img mask value).1 = shape0 img ∧
  shape1 (impute img mask value).1 = shape1 img ∧
  shape2 (impute img mask value).1 = shape2 img ∧
  ∀ r c k,
    entry (impute img mask value).1 r c k
    = match entry img r c k with
      | Some (Fin q) => Some (Fin q)
      | Some NaN => Some value
      | Some PInf => Some (Fin (finfo_max (dt img)))
      | Some NInf => Some (Fin (- finfo_max (dt img)))
      | None => None
      end.
Proof.
  split_and!; try reflexivity.
  intros r c k. unfold impute, nan_to_num; cbn [fst].
  rewrite (entry_map img (map (nan_to_num_entry (dt img) value))).
  unfold entry.
  destruct (data img !! r) as [row|]; [|done]. cbn.
  destruct (row !! c) as [px|]; [|done]. cbn.
  change (map ?f px) with (fmap (M:=list) f px).
  rewrite list_lookup_fmap.
  destruct (px !! k) as [[q| | |]|]; reflexivity.
Qed.

(** The replacements are finite and large. *)
Lemma finfo_max_float64 :
  finfo_max Float64 = inject_Z (2 ^ 1024 - 2 ^ 971).
Proof. reflexivity. Qed.

Example impute_infinity :
  entry (impute (NdArray Float64 1 1 (Some 2%nat) [[ [PInf; NaN] ]])
                (np_zeros 1 1) F.zero).1 0 0 0
  = Some (Fin (finfo_max Float64)).
Proof. reflexivity. Qed.

(** ** SliceCatalog *)

Lemma gt_fin (a b : Q) : F.gt (Fin a) (Fin b) = true ↔ (b < a)%Q.
Proof.
  simpl. rewrite negb_true_iff. split.
  - intros H. apply Qnot_le_lt. intros Hle.
    apply Qle_bool_iff in Hle. congruence.
  - intros H. destruct (Qle_bool a b) eqn:Hle; [|done].
    apply Qle_bool_iff in Hle. by apply Qlt_not_le in H.
Qed.

(** C5: [filter_directory] returns, in the order of the table, the
    path pairs of exactly the rows that pass: coverage of the filter
    channel strictly above the threshold, and image mean strictly
    positive.  A row whose coverage equals a threshold of 0.2 does not
    pass, and neither does a row whose image mean is 0. *)
Theorem filter_directory_strict (slice_meta : data_frame) (filter_perc : fval)
    (filter_channel : nat) :
  (filter_channel < mask_mean_columns slice_meta)%nat →
  filter_directory slice_meta filter_perc filter_channel
  = Ret (map to_pair
           (filter (passes filter_perc filter_channel) (rows slice_meta))) ∧
  (∀ d q, coverage filter_channel d = Fin q → (q == 0.2)%Q →
          ¬ passes (Fin 0.2) filter_channel d) ∧
  (∀ d q, img_mean d = Fin q → (q == 0)%Q →
          ¬ passes filter_perc filter_channel d) ∧
  (∀ d a b m, coverage filter_channel d = Fin a → filter_perc = Fin b →
              img_mean d = Fin m →
              passes filter_perc filter_channel d ↔ (b < a)%Q ∧ (0 < m)%Q).
Proof.
  intros Hcol. split_and!.
  - unfold filter_directory, mask_mean_column.
    rewrite decide_True by done. cbn [mbind result_bind].
    f_equal. unfold to_pair. f_equal.
    rewrite list_filter_filter. apply list_filter_iff.
    intros d. unfold passes. tauto.
  - intros d q Hd Hq [Hgt _]. rewrite Hd in Hgt.
    apply gt_fin in Hgt. rewrite Hq in Hgt. by apply Qlt_irrefl in Hgt.
  - intros d q Hd Hq [_ Hgt]. rewrite Hd in Hgt.
    apply gt_fin in Hgt. rewrite Hq in Hgt. by apply Qlt_irrefl in Hgt.
  - intros d a b m Hd -> Hm. unfold passes. rewrite Hd, Hm.
    unfold F.zero. by rewrite !gt_fin.
Qed.

Lemma filter_directory_strict_witness :
  (filter_channel_default < mask_mean_columns slice_meta_example)%nat ∧
  filter_directory slice_meta_example filter_perc_default
                   filter_channel_default
  = Ret (map to_pair
           (filter (passes filter_perc_default filter_channel_default)
                   (rows slice_meta_example))).
Proof.
  assert (H : (filter_channel_default < mask_mean_columns slice_meta_example)%nat)
    by (vm_compute; lia).
  split; [exact H|].
  exact (proj1 (filter_directory_strict slice_meta_example filter_perc_default
                  filter_channel_default H)).
Defined.

(** The default call on the example table keeps the second row only. *)
Example filter_directory_default :
  filter_directory slice_meta_example filter_perc_default
                   filter_channel_default
  = Ret [PathPair "img_1.npy" "mask_1.npy"].
Proof. reflexivity. Qed.

(** A column the table lacks is a [KeyError]. *)
Example filter_directory_missing_column :
  filter_directory slice_meta_example filter_perc_default 2
  = Raise (KeyError "mask_mean_2").
Proof. reflexivity. Qed.

(** ** SampleAssembler *)

(** The second comparison of [cropped_pathes] has a boolean on its
    right: ['debris_glaciers' and b] is [b]. *)
Lemma and_debris_glaciers (b : bool) :
  PyVal.and (VStr "debris_glaciers") (VBool b) = VBool b.
Proof. reflexivity. Qed.

(** So no mask variant given as a string takes the second branch:
    apart from [actual_debris], every variant reads the default cropped
    label, whatever the mode. *)
Lemma cropped_pathes_of_string (self : GlacierDataset) (variant : string) :
  mask_used self = VStr variant →
  cropped_pathes self
  = if String.eqb variant "actual_debris"
    then ["cropped_path"; "actual_debris_cropped_label"]
    else ["cropped_path"; "cropped_label"].
Proof.
  intros Hv. unfold cropped_pathes. rewrite Hv, and_debris_glaciers.
  cbn [PyVal.eq]. by destruct (String.eqb variant "actual_debris").
Qed.

(** C1 at a dev-set row: under the debris-glaciers variant with cropped
    variants on, [__getitem__] loads the mask from the default cropped
    label, where the comments of the code ask for the actual-debris
    cropped label. *)
Theorem getitem_debris_glaciers_dev :
  getitem_paths (dataset_example "dev") 0
  = Ret (Path "/data" "crop/img_0.npy", Path "/data" "crop/label_0.npy") ∧
  cropped_pathes (dataset_example "dev") = ["cropped_path"; "cropped_label"] ∧
  cropped_pathes_intended (dataset_example "dev")
  = ["cropped_path"; "actual_debris_cropped_label"].
Proof. split_and!; reflexivity. Qed.

(** The same on the test set. *)
Example getitem_debris_glaciers_test :
  getitem_paths (dataset_example "test") 0
  = Ret (Path "/data" "crop/img_0.npy", Path "/data" "crop/label_0.npy").
Proof. reflexivity. Qed.

(** The branch is reachable only by a boolean [mask_used]. *)
Example cropped_pathes_boolean :
  cropped_pathes (Dataset "/data" [catalog_row_example] "dev" true (VBool true))
  = ["cropped_path"; "actual_debris_cropped_label"].
Proof. reflexivity. Qed.

(** ** Ordered mappings *)

Section DictFacts.
Context {V : Type}.
Implicit Types (d : list (string * V)) (k : string) (v : V).

Lemma get_set_eq d k v : Dict.get (Dict.set d k v) k = Some v.
Proof.
  induction d as [|[k' v'] d IH]; simpl.
  - by rewrite String.eqb_refl.
  - destruct (String.eqb k' k) eqn:Hk; simpl.
    + by rewrite String.eqb_refl.
    + by rewrite Hk.
Qed.

Lemma get_set_ne d k k' v :
  k ≠ k' → Dict.get (Dict.set d k v) k' = Dict.get d k'.
Proof.
  intros Hne. induction d as [|[k0 v0] d IH]; simpl.
  - by rewrite (proj2 (String.eqb_neq k k')).
  - destruct (String.eqb k0 k) eqn:Hk; simpl.
    + apply String.eqb_eq in Hk as ->.
      by rewrite !(proj2 (String.eqb_neq k k')).
    + by rewrite IH.
Qed.

Lemma set_set d k v v' :
  Dict.set (Dict.set d k v) k v' = Dict.set d k v'.
Proof.
  induction d as [|[k0 v0] d IH]; simpl.
  - by rewrite String.eqb_refl.
  - destruct (String.eqb k0 k) eqn:Hk; simpl.
    + by rewrite String.eqb_refl.
    + by rewrite Hk, IH.
Qed.

(** Assigning to a key that is present keeps every key in its place. *)
Lemma keys_set_present d k v :
  is_Some (Dict.get d k) → Dict.keys (Dict.set d k v) = Dict.keys d.
Proof.
  induction d as [|[k' v'] d IH]; simpl; intros Hk.
  - by destruct Hk.
  - destruct (String.eqb k' k) eqn:He; simpl.
    + apply String.eqb_eq in He as ->. done.
    + f_equal. by apply IH.
Qed.

End DictFacts.

(** ** ChannelSelector *)

Lemma norm_index_in_range (c i : nat) :
  (i < c)%nat → norm_index c (Z.of_nat i) = Ret i.
Proof.
  intros Hi. unfold norm_index.
  rewrite (proj2 (Z.leb_le 0 (Z.of_nat i))) by lia.
  rewrite (proj2 (Z.ltb_lt (Z.of_nat i) (Z.of_nat c))) by lia.
  simpl. by rewrite Nat2Z.id.
Qed.

Lemma mapM_norm_index (c : nat) (l : list nat) :
  Forall (fun i => (i < c)%nat) l →
  mapM (norm_index c) (map Z.of_nat l) = Ret l.
Proof.
  induction 1 as [|i l Hi _ IH]; [done|].
  cbn [map mapM]. rewrite norm_index_in_range by done.
  cbn [mbind result_bind]. rewrite IH. reflexivity.
Qed.

Lemma mapM_norm_index_arange (c : nat) :
  mapM (norm_index c) (arange c) = Ret (seq 0 c).
Proof.
  apply mapM_norm_index, Forall_forall. intros i Hi%elem_of_seq. lia.
Qed.

Lemma all_channels (px : list fval) :
  map (fun j => default NaN (px !! j)) (seq 0 (length px)) = px.
Proof.
  apply list_eq; intros i.
  change (map ?f ?l) with (fmap (M:=list) f l).
  rewrite list_lookup_fmap.
  destruct (decide (i < length px)%nat) as [Hi|Hi].
  - rewrite lookup_seq_lt by done. cbn.
    destruct (lookup_lt_is_Some_2 px i Hi) as [x Hx]. by rewrite Hx.
  - rewrite lookup_seq_ge by lia. cbn.
    symmetry. apply lookup_ge_None_2. lia.
Qed.

(** Selecting every channel of a well-formed three-dimensional array,
    in order, gives the array back. *)
Lemma take_channels_arange (a : ndarray) (c : nat) :
  well_formed a → shape2 a = Some c →
  take_channels a (IxList (arange c)) = Ret a.
Proof.
  intros [_ Hwf] Hc. unfold take_channels, shape_2. rewrite Hc.
  cbn [mbind result_bind]. rewrite mapM_norm_index_arange.
  cbn [mbind result_bind]. rewrite length_seq.
  destruct a as [t h w ch d]; cbn in *. subst ch. f_equal. f_equal.
  unfold depth in Hwf; cbn in Hwf.
  rewrite <- (map_id d) at 2. apply map_ext_Forall.
  eapply Forall_impl; [exact Hwf|]. intros row [_ Hrow]; cbn.
  rewrite <- (map_id row) at 2. apply map_ext_Forall.
  eapply Forall_impl; [exact Hrow|]. intros px Hpx; cbn.
  rewrite <- Hpx. apply all_channels.
Qed.

Lemma extract_channel_default (img mask : ndarray) :
  well_formed img → well_formed mask →
  is_Some (shape2 img) → is_Some (shape2 mask) →
  extract_channel img mask None None = Ret (img, mask).
Proof.
  intros Hwi Hwm [c Hc] [m Hm]. unfold extract_channel, shape_2.
  rewrite Hc, Hm. cbn [mbind result_bind].
  rewrite (take_channels_arange img c) by done.
  cbn [mbind result_bind].
  by rewrite (take_channels_arange mask m) by done.
Qed.

Lemma extract_channel_full (img mask : ndarray) (c m : nat) :
  well_formed img → well_formed mask →
  shape2 img = Some c → shape2 mask = Some m →
  extract_channel img mask (Some (IxList (arange m)))
                  (Some (IxList (arange c)))
  = Ret (img, mask).
Proof.
  intros Hwi Hwm Hc Hm. unfold extract_channel.
  cbn [mbind result_bind].
  rewrite (take_channels_arange img c) by done.
  cbn [mbind result_bind].
  by rewrite (take_channels_arange mask m) by done.
Qed.

(** ** PostprocessPipeline *)

Section PipelineFacts.
Variable env : environment.
Implicit Types (img mask : ndarray) (sp : spec).

Lemma run_items_app nested (pre post : spec) img mask :
  run_items env nested (pre ++ post) img mask
  = (r ← run_items env nested pre img mask;
     run_items env nested post r.1 r.2).
Proof.
  revert img mask. induction pre as [|[name args] pre IH]; intros img mask.
  - reflexivity.
  - cbn [app run_items].
    destruct (module_getattr env name) as [f|e]; [|done]. cbn [mbind result_bind].
    destruct (call env nested name f img mask args) as [[img' mask']|e];
      [|done].
    cbn [mbind result_bind]. apply IH.
Qed.

Lemma bind_ret_pair {A B : Type} (r : result (A * B)) :
  (r ≫= fun '(a, b) => Ret (a, b)) = r.
Proof. by destruct r as [[??]|]. Qed.

(** Resolution fails exactly on the names the module lacks, and the
    failure carries the name. *)
Lemma module_getattr_unknown (fun_name : string) :
  unknown_name env fun_name ↔
  module_getattr env fun_name = Raise (AttributeError fun_name).
Proof.
  unfold unknown_name, module_getattr.
  destruct (Dict.get (module_dict env) fun_name); split; done.
Qed.

(** The pipeline of the single step [extract_channel] with its
    arguments [fun_args]. *)
Lemma postprocess_extract_channel frames img mask (fun_args : kwargs) :
  postprocess_ env (S frames) img mask [("extract_channel", fun_args)]
  = (_ ← bind_kwargs ["mask_channels"; "img_channels"] [] fun_args;
     mask_channels ←
       as_channels (default ANone (Dict.get fun_args "mask_channels"));
     img_channels ←
       as_channels (default ANone (Dict.get fun_args "img_channels"));
     extract_channel img mask mask_channels img_channels).
Proof.
  cbn [postprocess_ run_items].
  change (module_getattr env "extract_channel") with (Ret FExtractChannel).
  cbn [mbind result_bind call].
  apply bind_ret_pair.
Qed.

(** C7: with both channel sets left at their default, [extract_channel]
    returns the image and the mask as they are; so the pipeline whose
    only step is [extract_channel] with the full channel set, left
    implicit or written out, changes nothing, and running it twice is
    running it once. *)
Theorem extract_channel_default_noop frames img mask (c m : nat) :
  well_formed img → well_formed mask →
  shape2 img = Some c → shape2 mask = Some m →
  extract_channel img mask None None = Ret (img, mask) ∧
  ∀ fun_args,
    fun_args = [] ∨
    fun_args = [("mask_channels", AInts (arange m));
                ("img_channels", AInts (arange c))] →
    let run := fun im : ndarray * ndarray =>
      postprocess_ env (S frames) im.1 im.2 [("extract_channel", fun_args)] in
    run (img, mask) = Ret (img, mask) ∧
    (run (img, mask) ≫= run) = run (img, mask).
Proof.
  intros Hwi Hwm Hc Hm.
  assert (Hdef : extract_channel img mask None None = Ret (img, mask))
    by (by apply extract_channel_default).
  split; [done|]. intros fun_args Hargs run.
  assert (Hrun : run (img, mask) = Ret (img, mask)).
  { unfold run. rewrite postprocess_extract_channel.
    destruct Hargs as [-> | ->].
    - exact Hdef.
    - cbn. by apply extract_channel_full. }
  split; [done|]. rewrite Hrun. cbn [mbind result_bind]. exact Hrun.
Qed.

End PipelineFacts.

Lemma extract_channel_default_noop_witness :
  well_formed img_example ∧ well_formed (np_zeros 1 2) ∧
  shape2 img_example = Some 2%nat ∧ shape2 (np_zeros 1 2) = Some 1%nat ∧
  extract_channel img_example (np_zeros 1 2) None None
  = Ret (img_example, np_zeros 1 2).
Proof.
  assert (Hi : well_formed img_example).
  { split; [reflexivity|]. repeat constructor. }
  assert (Hm : well_formed (np_zeros 1 2)).
  { split; [reflexivity|]. repeat constructor. }
  split_and!; [done|done|reflexivity|reflexivity|].
  exact (proj1 (extract_channel_default_noop env_example 0 img_example
                  (np_zeros 1 2) 2 1 Hi Hm eq_refl eq_refl)).
Defined.

Section DispatchFacts.
Variable env : environment.
Implicit Types (img mask : ndarray) (sp : spec).

Lemma postprocess_app frames (pre post : spec) img mask :
  postprocess_ env (S frames) img mask (pre ++ post)
  = (r ← postprocess_ env (S frames) img mask pre;
     postprocess_ env (S frames) r.1 r.2 post).
Proof. apply run_items_app. Qed.

Lemma postprocess_unknown_head frames fun_name fun_args (post : spec) img mask :
  unknown_name env fun_name →
  postprocess_ env (S frames) img mask ((fun_name, fun_args) :: post)
  = Raise (AttributeError fun_name).
Proof.
  intros Hn%module_getattr_unknown. cbn [postprocess_ run_items].
  by rewrite Hn.
Qed.

(** C6, as the code has it: the names that fail to resolve are the
    names the module has no attribute for.  A spec that lists such a
    name never runs to completion; once the steps listed before it
    have completed, the error raised is [AttributeError] with that
    name, and nothing is called for it. *)
Theorem postprocess_unknown_name frames (pre post : spec) fun_name fun_args
    img mask :
  unknown_name env fun_name →
  module_getattr env fun_name = Raise (AttributeError fun_name) ∧
  (∀ r, postprocess_ env (S frames) img mask
          (pre ++ (fun_name, fun_args) :: post) ≠ Ret r) ∧
  (∀ r, postprocess_ env (S frames) img mask pre = Ret r →
        postprocess_ env (S frames) img mask
          (pre ++ (fun_name, fun_args) :: post)
        = Raise (AttributeError fun_name)).
Proof.
  intros Hn. split; [by apply module_getattr_unknown|].
  split.
  - intros r. rewrite postprocess_app.
    destruct (postprocess_ env (S frames) img mask pre) as [[img' mask']|e];
      [|done].
    cbn [mbind result_bind fst snd].
    by rewrite postprocess_unknown_head.
  - intros [img' mask'] Hpre. rewrite postprocess_app, Hpre.
    cbn [mbind result_bind fst snd].
    by apply postprocess_unknown_head.
Qed.

(** ** The single-image variant *)

Lemma mask_channels_of_set sp :
  mask_channels_of (set_mask_channels sp) = Some (AInt 0).
Proof.
  unfold mask_channels_of, set_mask_channels.
  rewrite get_set_eq. cbn. apply get_set_eq.
Qed.

Lemma set_mask_channels_idemp sp :
  set_mask_channels (set_mask_channels sp) = set_mask_channels sp.
Proof.
  unfold set_mask_channels. rewrite get_set_eq. cbn [default id].
  by rewrite !set_set.
Qed.

(** The other steps keep their arguments, and [extract_channel] keeps
    its other arguments. *)
Lemma set_mask_channels_frame sp fun_name :
  fun_name ≠ "extract_channel" →
  Dict.get (set_mask_channels sp) fun_name = Dict.get sp fun_name.
Proof. intros Hne. unfold set_mask_channels. by apply get_set_ne. Qed.

Lemma postprocess_tile_run frames img (process_funs : loc)
    (σ : gmap loc spec) sp :
  σ !! process_funs = Some sp →
  postprocess_tile env frames img process_funs σ
  = Some (<[process_funs:=set_mask_channels sp]> σ,
          postprocess_ env frames img (np_zeros (shape0 img) (shape1 img))
                       (set_mask_channels sp)).
Proof. intros Hsp. unfold postprocess_tile. by rewrite Hsp. Qed.

(** C9: [postprocess_tile] writes 0 into [extract_channel.mask_channels]
    of the spec object the caller passed, before the pipeline runs and
    whatever the pipeline then does.  The pipeline runs on the spec as
    overwritten, the object keeps the 0 afterwards, a value other than
    0 that it carried is gone, and a later call finds the spec as the
    first call left it. *)
Theorem postprocess_tile_overwrites_mask_channels frames img
    (process_funs : loc) (σ : gmap loc spec) sp :
  σ !! process_funs = Some sp →
  ∃ σ' r sp',
    postprocess_tile env frames img process_funs σ = Some (σ', r) ∧
    σ' = <[process_funs:=sp']> σ ∧
    σ' !! process_funs = Some sp' ∧
    mask_channels_of sp' = Some (AInt 0) ∧
    r = postprocess_ env frames img (np_zeros (shape0 img) (shape1 img)) sp' ∧
    (∀ v, mask_channels_of sp = Some v → v ≠ AInt 0 → sp' ≠ sp) ∧
    (∀ l, l ≠ process_funs → σ' !! l = σ !! l) ∧
    (∀ frames2 img2, ∃ r2,
        postprocess_tile env frames2 img2 process_funs σ' = Some (σ', r2)).
Proof.
  intros Hsp. rewrite (postprocess_tile_run _ _ _ _ _ Hsp).
  eexists _, _, (set_mask_channels sp). split; [reflexivity|].
  split_and!.
  - reflexivity.
  - apply lookup_insert_eq.
  - apply mask_channels_of_set.
  - reflexivity.
  - intros v Hv Hne Heq.
    pose proof (mask_channels_of_set sp) as H0. rewrite Heq in H0.
    congruence.
  - intros l Hl. by apply lookup_insert_ne.
  - intros frames2 img2.
    erewrite postprocess_tile_run by apply lookup_insert_eq.
    rewrite set_mask_channels_idemp, insert_insert_eq.
    eexists. reflexivity.
Qed.

End DispatchFacts.

Lemma postprocess_unknown_name_witness :
  unknown_name env_example "standardize" ∧
  postprocess_ env_example 1 img_example (np_zeros 1 2) spec_unknown_step
  = Raise (AttributeError "standardize").
Proof.
  assert (Hn : unknown_name env_example "standardize") by reflexivity.
  split; [exact Hn|].
  refine (proj2 (proj2 (postprocess_unknown_name env_example 0
            [("impute", [("value", AInt 0)])] [("extract_channel", [])]
            "standardize" [] img_example (np_zeros 1 2) Hn)) _ _).
  reflexivity.
Defined.

Lemma postprocess_tile_overwrites_mask_channels_witness :
  spec_store_example !! 0%nat = Some spec_two_mask_channels ∧
  ∃ σ' r sp',
    postprocess_tile env_example 1 img_example 0%nat spec_store_example
    = Some (σ', r) ∧
    σ' !! 0%nat = Some sp' ∧
    mask_channels_of sp' = Some (AInt 0).
Proof.
  split; [reflexivity|].
  destruct (postprocess_tile_overwrites_mask_channels env_example 1 img_example
              0%nat spec_store_example spec_two_mask_channels eq_refl)
    as (σ' & r & sp' & Hrun & _ & Hl & H0 & _).
  by exists σ', r, sp'.
Defined.

(** C6 as stated fails on a name outside the step registry that the
    module does have: the pipeline's own helper is resolved, called,
    and the run completes without an error.  It also fails when a step
    listed before the unknown name raises first: the error is then that
    step's, and does not carry the name. *)
Lemma postprocess_dispatches_helper :
  mem "postprocess_" step_registry = false ∧
  module_getattr env_example "postprocess_" = Ret FPostprocess_ ∧
  postprocess_ env_example 2 img_example (np_zeros 1 2) spec_helper_as_step
  = Ret (img_example, np_zeros 1 2) ∧
  mem "standardize" step_registry = false ∧
  postprocess_ env_example 1 img_example (np_zeros 1 2)
    [("extract_channel", [("img_channels", AInts [5])]); ("standardize", [])]
  = Raise IndexError.
Proof. split_and!; reflexivity. Qed.

(** Other names of the module resolve too, to a function that is no
    step or to something that is not callable. *)
Example getattr_random_split : module_getattr env_example "random_split" = Ret FOther.
Proof. reflexivity. Qed.

Example postprocess_calls_module :
  postprocess_ env_example 1 img_example (np_zeros 1 2) [("np", [])]
  = Raise TypeError.
Proof. reflexivity. Qed.

(** The spec of the example before and after one call. *)
Example set_mask_channels_example :
  set_mask_channels spec_two_mask_channels
  = [("impute", []); ("extract_channel", [("mask_channels", AInt 0)])].
Proof. reflexivity. Qed.

(** A spec without an [extract_channel] step gains one, at the end. *)
Example set_mask_channels_creates :
  set_mask_channels [("impute", [])]
  = [("impute", []); ("extract_channel", [("mask_channels", AInt 0)])].
Proof. reflexivity. Qed.

(** * Further properties of the code *)

(** ** Splitter: sizes, completeness, edge cases *)

Section SplitterMore.
Context {X : Type}.
Implicit Types (w : world X) (x : list X) (s : split_ids X).

Lemma cumsum_from_length acc (l : list Q) :
  length (Py.cumsum_from acc l) = length l.
Proof.
  revert acc. induction l as [|q l IH]; intros acc; simpl; [done|].
  by rewrite IH.
Qed.

Lemma boundaries_length (n : nat) (ratios : list Q) :
  length (boundaries n ratios) = length ratios.
Proof.
  unfold boundaries. rewrite !length_map.
  destruct ratios as [|r ratios]; simpl; [done|].
  by rewrite cumsum_from_length, length_map.
Qed.




(** X3: a ratio sequence of fewer than three entries raises
    [IndexError], and by then the caller's list has been shuffled. *)
Theorem random_split_short_ratios w ids x (ratios : list Q) :
  lists w !! ids = Some x →
  (length ratios < 3)%nat →
  ∃ w',
    random_split ids ratios w = Some (w', Raise IndexError) ∧
    lists w' !! ids = Some (Py.shuffle x (rand w)).1 ∧
    (Py.shuffle x (rand w)).1 ≡ₚ x ∧
    rand w' = (Py.shuffle x (rand w)).2.
Proof.
  intros Hx Hlen.
  rewrite (random_split_state w ids x ratios Hx). cbv zeta.
  pose proof (boundaries_length (length x) ratios) as Hb.
  eexists. split.
  - f_equal. f_equal. unfold index.
    destruct (boundaries (length x) ratios) as [|i0 [|i1 [|i2 ix]]];
      simpl in *; try done. lia.
  - split_and!; [apply lookup_insert_eq|apply shuffle_perm|done].
Qed.

Lemma slice_nil (start stop : option Z) : Py.slice (@nil X) start stop = [].
Proof. unfold Py.slice. by rewrite drop_nil, take_nil. Qed.

(** X4: an empty list of ids gives three empty buckets for every ratio
    triple, negative or above one included, and leaves the store and
    the random source as they were. *)
Theorem random_split_empty w ids (r1 r2 r3 : Q) :
  lists w !! ids = Some [] →
  random_split ids [r1; r2; r3] w
  = Some (w, Ret (SplitIds [] [] [])).
Proof.
  intros Hx. rewrite (random_split_state w ids [] [r1; r2; r3] Hx).
  cbv zeta. cbn [Py.shuffle length Py.shuffle_down Nat.sub fst snd].
  rewrite boundaries_three.
  cbv zeta. unfold index. cbn [lookup list_lookup mbind result_bind].
  rewrite !slice_nil.
  destruct w as [g m]; cbn in *. by rewrite insert_id.
Qed.

End SplitterMore.



Lemma random_split_short_ratios_witness :
  lists ids_example !! 0%nat = Some [10; 20; 30; 40; 50]%nat ∧
  (length [0.5; 0.5]%Q < 3)%nat ∧
  ∃ w',
    random_split 0%nat [0.5; 0.5]%Q ids_example = Some (w', Raise IndexError) ∧
    lists w' !! 0%nat = Some [10; 30; 50; 20; 40]%nat.
Proof.
  assert (Hlen : (length [0.5; 0.5]%Q < 3)%nat) by (simpl; lia).
  split_and!; [reflexivity|done|].
  destruct (random_split_short_ratios ids_example 0%nat
              [10; 20; 30; 40; 50]%nat [0.5; 0.5]%Q eq_refl Hlen)
    as (w' & Hrun & Hl & _).
  exists w'. split; [done|]. exact Hl.
Defined.

Lemma random_split_empty_witness :
  lists ids_empty_example !! 0%nat = Some [] ∧
  random_split 0%nat [2; -1; 5]%Q ids_empty_example
  = Some (ids_empty_example, Ret (SplitIds [] [] [])).
Proof.
  split; [reflexivity|].
  exact (random_split_empty ids_empty_example 0%nat 2 (-1) 5 eq_refl).
Defined.

(** ** SliceCatalog: missing values and the threshold *)

Lemma filter_directory_rows (slice_meta : data_frame) (filter_perc : fval)
    (filter_channel : nat) :
  (filter_channel < mask_mean_columns slice_meta)%nat →
  filter_directory slice_meta filter_perc filter_channel
  = Ret (to_pair <$>
           filter (passes filter_perc filter_channel) (rows slice_meta)).
Proof.
  intros Hcol. unfold filter_directory, mask_mean_column.
  rewrite decide_True by done. cbn [mbind result_bind].
  f_equal. rewrite list_filter_filter.
  change (map ?f ?l) with (f <$> l). unfold to_pair. f_equal.
  apply list_filter_iff. intros d. unfold passes. tauto.
Qed.

Lemma gt_not_nan (x y : fval) : F.gt x y = true → is_nan x = false.
Proof. by destruct x. Qed.

(** X5: rows whose coverage or image mean is NaN are never returned,
    a missing coverage cell included: deleting them from the table
    changes nothing.  Under a NaN threshold nothing is returned. *)
Theorem filter_directory_ignores_nan (slice_meta : data_frame)
    (filter_perc : fval) (filter_channel : nat) :
  filter_directory
    (DataFrame (mask_mean_columns slice_meta)
       (filter (fun d => is_nan (coverage filter_channel d) = false ∧
                         is_nan (img_mean d) = false) (rows slice_meta)))
    filter_perc filter_channel
  = filter_directory slice_meta filter_perc filter_channel ∧
  (∀ d, (mask_mean d !! filter_channel = None ∨
         coverage filter_channel d = NaN ∨ img_mean d = NaN) →
        ¬ passes filter_perc filter_channel d) ∧
  ((filter_channel < mask_mean_columns slice_meta)%nat →
   filter_directory slice_meta NaN filter_channel = Ret []).
Proof.
  split_and!.
  - unfold filter_directory, mask_mean_column; cbn [mask_mean_columns rows].
    destruct (decide (filter_channel < mask_mean_columns slice_meta)%nat);
      [|done].
    cbn [mbind result_bind]. f_equal. f_equal.
    rewrite !list_filter_filter. apply list_filter_iff.
    intros d. split; [tauto|].
    intros [Hm Hc]. split_and!; [done|done|by eapply gt_not_nan..].
  - intros d Hd [Hc Hm].
    destruct Hd as [Hd|[Hd|Hd]].
    + unfold coverage in Hc. by rewrite Hd in Hc.
    + by rewrite Hd in Hc.
    + by rewrite Hd in Hm.
  - intros Hcol. rewrite filter_directory_rows by done. f_equal.
    assert (Hnone : filter (passes NaN filter_channel) (rows slice_meta) = []).
    { induction (rows slice_meta) as [|d l IH]; [done|].
      rewrite filter_cons_False; [done|].
      intros [Hc _]. by destruct (coverage filter_channel d). }
    by rewrite Hnone.
Qed.

Lemma passes_weaken (p p' : Q) (filter_channel : nat) (d : slice_row) :
  (p <= p')%Q →
  passes (Fin p') filter_channel d → passes (Fin p) filter_channel d.
Proof.
  intros Hp [Hc Hm]. split; [|done].
  destruct (coverage filter_channel d) as [a| | |]; try done.
  apply gt_fin. apply gt_fin in Hc. by apply Qle_lt_trans with p'.
Qed.

(** X6: the result is a sub-sequence of the table's rows, in their
    order, and raising the threshold can only drop pairs from it. *)
Theorem filter_directory_threshold_monotone (slice_meta : data_frame)
    (p p' : Q) (filter_channel : nat) :
  (filter_channel < mask_mean_columns slice_meta)%nat →
  (p <= p')%Q →
  ∃ l l',
    filter_directory slice_meta (Fin p) filter_channel = Ret l ∧
    filter_directory slice_meta (Fin p') filter_channel = Ret l' ∧
    l' `sublist_of` l ∧
    l `sublist_of` (to_pair <$> rows slice_meta) ∧
    (length l' ≤ length l ∧ length l ≤ length (rows slice_meta))%nat.
Proof.
  intros Hcol Hp. rewrite !filter_directory_rows by done.
  eexists _, _. split; [reflexivity|]. split; [reflexivity|].
  assert (H1 : (to_pair <$> filter (passes (Fin p') filter_channel)
                              (rows slice_meta))
               `sublist_of`
               (to_pair <$> filter (passes (Fin p) filter_channel)
                              (rows slice_meta))).
  { apply fmap_sublist.
    rewrite <- (list_filter_filter_l (passes (Fin p') filter_channel)
                  (passes (Fin p) filter_channel))
      by (intros d; by apply passes_weaken).
    apply sublist_filter. }
  assert (H2 : (to_pair <$> filter (passes (Fin p) filter_channel)
                              (rows slice_meta))
               `sublist_of` (to_pair <$> rows slice_meta)).
  { apply fmap_sublist, sublist_filter. }
  split_and!; [done|done|exact (sublist_length _ _ H1)|].
  apply sublist_length in H2. by rewrite !length_fmap in *.
Qed.

Lemma filter_directory_threshold_monotone_witness :
  (1 < mask_mean_columns slice_meta_example)%nat ∧ (0.2 <= 0.5)%Q ∧
  ∃ l l',
    filter_directory slice_meta_example (Fin 0.2) 1 = Ret l ∧
    filter_directory slice_meta_example (Fin 0.5) 1 = Ret l' ∧
    l' `sublist_of` l.
Proof.
  assert (Hc : (1 < mask_mean_columns slice_meta_example)%nat)
    by (vm_compute; lia).
  assert (Hp : (0.2 <= 0.5)%Q) by (by vm_compute).
  split_and!; [done|done|].
  destruct (filter_directory_threshold_monotone slice_meta_example
              0.2 0.5 1 Hc Hp) as (l & l' & H1 & H2 & H3 & _).
  by exists l, l'.
Defined.

(** The row of the example whose coverage cell is missing is dropped,
    and so is the row whose image mean is NaN. *)
Example filter_directory_missing_cell :
  filter_directory slice_meta_nan_example filter_perc_default 1
  = Ret [PathPair "img_1.npy" "mask_1.npy"].
Proof. reflexivity. Qed.

(** ** Normalizer: missing statistics, shape, finiteness *)

Section NormalizerMore.
Implicit Types (d : list (list (list fval))) (px : list fval).

Lemma normalize_loop_app means stds (r1 r2 : list nat) d :
  normalize_loop means stds (r1 ++ r2) d
  = (d' ← normalize_loop means stds r1 d; normalize_loop means stds r2 d').
Proof.
  revert d. induction r1 as [|i r1 IH]; intros d; [done|].
  cbn [app normalize_loop].
  destruct (normalize_channel means stds i d) as [d'|e]; [|done].
  cbn [mbind result_bind]. apply IH.
Qed.

Lemma normalize_channel_missing means stds i d :
  means !! i = None ∨ stds !! i = None →
  normalize_channel means stds i d = Raise IndexError.
Proof.
  intros Hi. unfold normalize_channel, index.
  destruct (means !! i) as [m|]; [|done].
  destruct Hi as [?|Hs]; [done|]. by rewrite Hs.
Qed.

(** X7: when the image has more channels than there are means or
    deviations, [normalize_] raises [IndexError], whatever the image
    holds. *)
Theorem normalize_missing_statistics (img : ndarray) means stds (c : nat) :
  shape2 img = Some c →
  (length means < c ∨ length stds < c)%nat →
  normalize_ img means stds = Raise IndexError.
Proof.
  intros Hc Hlen. unfold normalize_, shape_2. rewrite Hc.
  cbn [mbind result_bind].
  set (k := (length means `min` length stds)%nat).
  assert (Hk : (k < c)%nat) by lia.
  replace c with (k + S (c - S k))%nat by lia.
  rewrite seq_app. cbn [seq]. rewrite normalize_loop_app.
  rewrite normalize_loop_ok.
  2:{ apply Forall_forall. intros i Hi%elem_of_seq.
      split; apply lookup_lt_is_Some; lia. }
  cbn [mbind result_bind normalize_loop].
  rewrite normalize_channel_missing; [done|].
  destruct (decide (length means ≤ length stds)%nat).
  - left. apply lookup_ge_None_2. lia.
  - right. apply lookup_ge_None_2. lia.
Qed.

(** What one turn of the loop does when it returns: it rewrites
    channel [i] by a function that keeps numbers finite when the
    statistics are. *)
Lemma normalize_channel_ret means stds i d d' :
  normalize_channel means stds i d = Ret d' →
  ∃ f, d' = on_channel f i d ∧
       (Forall finite means → Forall finite stds →
        ∀ x, finite x → finite (f x)).
Proof.
  unfold normalize_channel, index.
  destruct (means !! i) as [m|] eqn:Hm; [|done].
  destruct (stds !! i) as [s|] eqn:Hs; [|done].
  cbn [mbind result_bind]. unfold divide_channel.
  destruct (F.gt s F.zero) eqn:Hgt.
  - rewrite (gt_zero_not_zero s Hgt), on_channel_compose.
    intros [= <-]. eexists; split; [reflexivity|].
    intros Hms Hss x [q ->].
    rewrite Forall_forall in Hms, Hss.
    destruct (Hms m) as [qm ->]; [by eapply list_elem_of_lookup_2|].
    destruct (Hss s) as [qs ->]; [by eapply list_elem_of_lookup_2|].
    apply gt_zero_not_zero in Hgt. cbn in Hgt. cbn. rewrite Hgt.
    by eexists.
  - rewrite on_channel_compose. intros [= <-].
    eexists; split; [reflexivity|]. intros _ _ x _. by exists 0%Q.
Qed.

Lemma on_channel_lengths (f : fval → fval) i d (h w c : nat) :
  length d = h ∧
  Forall (fun row => length row = w ∧
                     Forall (fun px => length px = c) row) d →
  length (on_channel f i d) = h ∧
  Forall (fun row => length row = w ∧
                     Forall (fun px => length px = c) row)
         (on_channel f i d).
Proof.
  intros [Hh Hd]. unfold on_channel. split; [by rewrite length_map|].
  apply Forall_map. eapply Forall_impl; [exact Hd|].
  intros row [Hw Hrow]; cbn. split; [by rewrite length_map|].
  apply Forall_map. eapply Forall_impl; [exact Hrow|].
  intros px Hpx; cbn. by rewrite length_alter.
Qed.


(** X8: whenever [normalize_] returns, the array it returns has the
    type and the shape of the image and is well formed if the image
    is: a channel is rewritten in place, nothing is added or removed. *)
Theorem normalize_keeps_shape (img img' : ndarray) means stds :
  normalize_ img means stds = Ret img' →
  dt img' = dt img ∧ shape0 img' = shape0 img ∧
  shape1 img' = shape1 img ∧ shape2 img' = shape2 img ∧
  (well_formed img → well_formed img').
Proof.
  unfold normalize_, shape_2.
  destruct (shape2 img) as [c|] eqn:Hc; [|done].
  cbn [mbind result_bind].
  destruct (normalize_loop means stds (seq 0 c) (data img)) as [d'|e] eqn:Hl;
    [|done].
  cbn [mbind result_bind]. intros [= <-].
  split_and!; try done.
  unfold well_formed, depth, with_data; cbn [data shape0 shape1 shape2].
  rewrite Hc. cbn [default].
  generalize dependent (data img). generalize (seq 0 c).
  intros range. induction range as [|i range IH]; intros d Hl Hwf.
  - cbn in Hl. by injection Hl as <-.
  - cbn [normalize_loop] in Hl.
    destruct (normalize_channel means stds i d) as [d1|e] eqn:H1; [|done].
    cbn [mbind result_bind] in Hl.
    apply normalize_channel_ret in H1 as (f & -> & _).
    apply (IH _ Hl). by apply on_channel_lengths.
Qed.


End NormalizerMore.

Lemma normalize_missing_statistics_witness :
  shape2 img_example = Some 2%nat ∧
  (length [Fin 1] < 2 ∨ length stds_example < 2)%nat ∧
  normalize_ img_example [Fin 1] stds_example = Raise IndexError.
Proof.
  assert (H : (length [Fin 1] < 2 ∨ length stds_example < 2)%nat)
    by (left; simpl; lia).
  split_and!; [reflexivity|exact H|].
  exact (normalize_missing_statistics img_example [Fin 1] stds_example 2
           eq_refl H).
Defined.

Lemma normalize_keeps_shape_witness :
  normalize_ img_example means_example stds_example
  = Ret img_normalized_example ∧
  shape2 img_normalized_example = shape2 img_example.
Proof.
  split; [reflexivity|].
  exact (proj1 (proj2 (proj2 (proj2
    (normalize_keeps_shape img_example img_normalized_example
       means_example stds_example eq_refl))))).
Defined.


(** ** Imputer: what comes out is finite *)



(** ** ChannelSelector: selection, order, bounds *)

Lemma norm_index_in_axis (c : nat) (k : Z) :
  in_axis c k →
  norm_index c k = Ret (Z.to_nat (k `mod` Z.of_nat c)) ∧
  (Z.to_nat (k `mod` Z.of_nat c) < c)%nat.
Proof.
  intros [Hlo Hhi]. unfold norm_index.
  assert (Hc : 0 < Z.of_nat c) by lia.
  pose proof (Z.mod_pos_bound k (Z.of_nat c) Hc) as Hm.
  split; [|lia].
  destruct (Z.leb_spec 0 k) as [H0|H0].
  - rewrite (proj2 (Z.ltb_lt k (Z.of_nat c))) by lia. cbn.
    by rewrite Z.mod_small by lia.
  - cbn. rewrite (proj2 (Z.leb_le (- Z.of_nat c) k)) by lia.
    rewrite (proj2 (Z.ltb_lt k 0)) by lia. cbn.
    f_equal. f_equal. symmetry.
    rewrite <- (Z.mod_add k 1 (Z.of_nat c)) by lia.
    rewrite Z.mod_small; lia.
Qed.

Lemma norm_index_out (c : nat) (k : Z) :
  ¬ in_axis c k → norm_index c k = Raise IndexError.
Proof.
  intros Hk. unfold norm_index, in_axis in *.
  destruct (Z.leb_spec 0 k), (Z.ltb_spec k (Z.of_nat c)),
    (Z.leb_spec (- Z.of_nat c) k), (Z.ltb_spec k 0); cbn; (done || lia).
Qed.

Lemma mapM_norm_index_in_axis (c : nat) (ks : list Z) :
  Forall (in_axis c) ks →
  mapM (norm_index c) ks
  = Ret ((fun k => Z.to_nat (k `mod` Z.of_nat c)) <$> ks).
Proof.
  induction 1 as [|k ks Hk _ IH]; [done|].
  cbn [mapM]. rewrite (proj1 (norm_index_in_axis c k Hk)).
  cbn [mbind result_bind]. by rewrite IH.
Qed.

Lemma mapM_norm_index_out (c : nat) (ks : list Z) :
  Exists (fun k => ¬ in_axis c k) ks →
  mapM (norm_index c) ks = Raise IndexError.
Proof.
  induction ks as [|k ks IH]; intros Hex; [by inversion Hex|].
  cbn [mapM].
  destruct (decide (in_axis c k)) as [Hk|Hk].
  - rewrite (proj1 (norm_index_in_axis c k Hk)). cbn [mbind result_bind].
    rewrite IH; [done|]. by inversion Hex.
  - by rewrite norm_index_out.
Qed.

Lemma take_channels_selects (a : ndarray) (c : nat) (ks : list Z) :
  well_formed a → shape2 a = Some c →
  Forall (in_axis c) ks →
  ∃ a', take_channels a (IxList ks) = Ret a' ∧ selects a a' ks.
Proof.
  intros [Hh Hwf] Hc Hks. unfold take_channels, shape_2. rewrite Hc.
  cbn [mbind result_bind]. rewrite mapM_norm_index_in_axis by done.
  cbn [mbind result_bind]. eexists; split; [reflexivity|].
  unfold selects, depth in *. rewrite Hc in *. cbn [default] in *.
  cbn [dt shape0 shape1 shape2]. rewrite length_fmap.
  split_and!; try done.
  - unfold well_formed, depth; cbn [data shape0 shape1 shape2 default].
    split; [by rewrite length_map|].
    apply Forall_map. eapply Forall_impl; [exact Hwf|].
    intros row [Hw Hrow]; cbn. split; [by rewrite length_map|].
    apply Forall_map, Forall_forall. intros px _. cbn.
    by rewrite length_map, length_fmap.
  - intros r col j k Hj. unfold entry; cbn [data].
    change (map ?f ?l) with (f <$> l). rewrite list_lookup_fmap.
    destruct (data a !! r) as [row|] eqn:Hr; [|done]. cbn.
    rewrite list_lookup_fmap.
    destruct (row !! col) as [px|] eqn:Hcol; [|done]. cbn.
    rewrite !list_lookup_fmap, Hj. cbn.
    rewrite Forall_forall in Hwf.
    destruct (Hwf row) as [_ Hrow]; [by eapply list_elem_of_lookup_2|].
    rewrite Forall_forall in Hrow.
    pose proof (Hrow px ltac:(by eapply list_elem_of_lookup_2)) as Hpx.
    rewrite Forall_forall in Hks.
    destruct (norm_index_in_axis c k) as [_ Hlt];
      [by eapply Hks, list_elem_of_lookup_2|].
    destruct (lookup_lt_is_Some_2 px (Z.to_nat (k `mod` Z.of_nat c)))
      as [x Hx]; [unfold id in Hpx; lia|].
    by rewrite Hx.
Qed.

(** X11: given index lists within bounds, [extract_channel] returns an
    image and a mask that hold exactly the listed channels, in the
    order listed, repeated when listed twice; negative indices count
    from the last channel.  Rows and columns are untouched. *)
Theorem extract_channel_selects (img mask : ndarray) (c m : nat)
    (img_channels mask_channels : list Z) :
  well_formed img → well_formed mask →
  shape2 img = Some c → shape2 mask = Some m →
  Forall (in_axis c) img_channels → Forall (in_axis m) mask_channels →
  ∃ img' mask',
    extract_channel img mask (Some (IxList mask_channels))
                    (Some (IxList img_channels))
    = Ret (img', mask') ∧
    selects img img' img_channels ∧
    selects mask mask' mask_channels.
Proof.
  intros Hwi Hwm Hc Hm Hi Hk.
  destruct (take_channels_selects img c img_channels Hwi Hc Hi)
    as (img' & Hti & Hsi).
  destruct (take_channels_selects mask m mask_channels Hwm Hm Hk)
    as (mask' & Htm & Hsm).
  exists img', mask'. unfold extract_channel. cbn [mbind result_bind mret].
  rewrite Hti. cbn [mbind result_bind]. rewrite Htm. done.
Qed.

(** X12: an index outside the channel axis of the image makes
    [extract_channel] raise [IndexError], whatever the mask and the
    mask channels are. *)
Theorem extract_channel_out_of_range (img mask : ndarray) (c : nat)
    (img_channels : list Z) (mask_channels : option channel_index) :
  shape2 img = Some c →
  Exists (fun k => ¬ in_axis c k) img_channels →
  extract_channel img mask mask_channels (Some (IxList img_channels))
  = Raise IndexError.
Proof.
  intros Hc Hex. unfold extract_channel.
  assert (Hi : take_channels img (IxList img_channels) = Raise IndexError).
  { unfold take_channels, shape_2. rewrite Hc. cbn [mbind result_bind].
    by rewrite mapM_norm_index_out. }
  destruct mask_channels as [ix|].
  - cbn [mbind result_bind]. by rewrite Hi.
  - unfold shape_2. destruct (shape2 mask); [|done].
    cbn [mbind result_bind]. by rewrite Hi.
Qed.

Lemma extract_channel_selects_witness :
  well_formed img_example ∧ well_formed (np_zeros 1 2) ∧
  shape2 img_example = Some 2%nat ∧ shape2 (np_zeros 1 2) = Some 1%nat ∧
  Forall (in_axis 2) [1; -2; 1] ∧ Forall (in_axis 1) [0; -1] ∧
  ∃ img' mask',
    extract_channel img_example (np_zeros 1 2) (Some (IxList [0; -1]))
                    (Some (IxList [1; -2; 1]))
    = Ret (img', mask') ∧
    shape2 img' = Some 3%nat ∧ shape2 mask' = Some 2%nat.
Proof.
  assert (Hi : well_formed img_example).
  { split; [reflexivity|]. repeat constructor. }
  assert (Hm : well_formed (np_zeros 1 2)).
  { split; [reflexivity|]. repeat constructor. }
  assert (Hki : Forall (in_axis 2) [1; -2; 1]).
  { repeat (constructor; [unfold in_axis; simpl; lia|]). constructor. }
  assert (Hkm : Forall (in_axis 1) [0; -1]).
  { repeat (constructor; [unfold in_axis; simpl; lia|]). constructor. }
  split_and!; [done|done|reflexivity|reflexivity|done|done|].
  destruct (extract_channel_selects img_example (np_zeros 1 2) 2 1
              [1; -2; 1] [0; -1] Hi Hm eq_refl eq_refl Hki Hkm)
    as (img' & mask' & Hrun & Hsi & Hsm).
  exists img', mask'. split; [done|].
  split; [apply Hsi|apply Hsm].
Defined.

Lemma extract_channel_out_of_range_witness :
  shape2 img_example = Some 2%nat ∧
  Exists (fun k => ¬ in_axis 2 k) [0; 2] ∧
  extract_channel img_example (np_zeros 1 2) None (Some (IxList [0; 2]))
  = Raise IndexError.
Proof.
  assert (Hex : Exists (fun k => ¬ in_axis 2 k) [0; 2]).
  { apply Exists_cons_tl, Exists_cons_hd. unfold in_axis. simpl. lia. }
  split_and!; [reflexivity|exact Hex|].
  exact (extract_channel_out_of_range img_example (np_zeros 1 2) 2 [0; 2]
           None eq_refl Hex).
Defined.

(** ** PostprocessPipeline: composition, the mask, keyword arguments *)

Section PipelineMore.
Variable env : environment.
Implicit Types (img mask : ndarray) (sp : spec).

(** X13: an empty spec returns the pair as it is, and the pipeline of
    two specs put end to end is the pipeline of the first followed by
    the pipeline of the second on its result; an error of the first
    ends the run. *)
Theorem postprocess_sequential frames sp1 sp2 img mask :
  postprocess_ env (S frames) img mask [] = Ret (img, mask) ∧
  postprocess_ env (S frames) img mask (sp1 ++ sp2)
  = (r ← postprocess_ env (S frames) img mask sp1;
     postprocess_ env (S frames) r.1 r.2 sp2).
Proof. split; [reflexivity|]. apply run_items_app. Qed.

Lemma impute_step_mask img mask fun_args r :
  call env (postprocess_ env 0) "impute" FImpute img mask fun_args = Ret r →
  r.2 = mask.
Proof.
  cbn [call]. destruct (bind_kwargs _ _ _); [|done]. cbn [mbind result_bind].
  destruct (as_float _); [|done]. cbn [mbind result_bind].
  by intros [= <-].
Qed.

(** X14: a pipeline made of [normalize] and [impute] steps only
    returns the mask it was given. *)
Theorem postprocess_keeps_mask frames sp img mask r :
  Forall (fun step => step.1 = "normalize" ∨ step.1 = "impute") sp →
  postprocess_ env frames img mask sp = Ret r →
  r.2 = mask.
Proof.
  intros Hsp. destruct frames as [|frames]; [done|].
  cbn [postprocess_]. revert img.
  induction Hsp as [|[name args] sp Hname _ IH]; intros img.
  - cbn. by intros [= <-].
  - cbn [run_items]. cbn [fst] in Hname. destruct Hname as [-> | ->].
    + change (module_getattr env "normalize") with (Ret FNormalize).
      cbn [mbind result_bind call].
      destruct (bind_kwargs _ _ _); [|done]. cbn [mbind result_bind].
      destruct (as_path _) as [stats_path|]; [|done].
      cbn [mbind result_bind].
      destruct (normalize (disk env) img mask stats_path)
        as [[img' mask']|] eqn:Hn; [|done].
      apply normalize_mask_unchanged in Hn. cbn in Hn. subst mask'.
      cbn [mbind result_bind]. apply IH.
    + change (module_getattr env "impute") with (Ret FImpute).
      cbn [mbind result_bind call].
      destruct (bind_kwargs _ _ _); [|done]. cbn [mbind result_bind].
      destruct (as_float _); [|done]. cbn [mbind result_bind impute].
      apply IH.
Qed.

Lemma mem_spec (k : string) (ks : list string) : mem k ks = true ↔ k ∈ ks.
Proof.
  unfold mem. rewrite existsb_exists. split.
  - intros (k' & Hin & ->%String.eqb_eq). by apply list_elem_of_In.
  - intros Hin. exists k. split; [by apply list_elem_of_In|].
    apply String.eqb_refl.
Qed.

Lemma bind_kwargs_unexpected (accepted required : list string)
    (fun_args : kwargs) (k : string) :
  k ∈ Dict.keys fun_args → k ∉ accepted →
  bind_kwargs accepted required fun_args = Raise TypeError.
Proof.
  intros Hk Hacc. unfold bind_kwargs.
  destruct (forallb _ (Dict.keys fun_args)) eqn:Hall; [|done].
  rewrite forallb_forall in Hall.
  specialize (Hall k (proj1 (list_elem_of_In _ _) Hk)).
  by apply mem_spec in Hall.
Qed.

Lemma bind_kwargs_missing (accepted required : list string)
    (fun_args : kwargs) (k : string) :
  k ∈ required → k ∉ Dict.keys fun_args →
  bind_kwargs accepted required fun_args = Raise TypeError.
Proof.
  intros Hk Hargs. unfold bind_kwargs.
  destruct (forallb (fun k => mem k (Dict.keys fun_args)) required) eqn:Hall.
  - rewrite forallb_forall in Hall.
    specialize (Hall k (proj1 (list_elem_of_In _ _) Hk)).
    by apply mem_spec in Hall.
  - by rewrite andb_false_r.
Qed.

(** X15: a step of the registry that is given a keyword argument its
    function does not have raises [TypeError], and so does a
    [normalize] step without [stats_path]; the steps after it do not
    run. *)
Theorem postprocess_keyword_arguments frames fun_name (fun_args : kwargs)
    (post : spec) img mask :
  (fun_name ∈ step_registry →
   (∃ k, k ∈ Dict.keys fun_args ∧ k ∉ parameters_of fun_name) →
   postprocess_ env (S frames) img mask ((fun_name, fun_args) :: post)
   = Raise TypeError) ∧
  ("stats_path" ∉ Dict.keys fun_args →
   postprocess_ env (S frames) img mask (("normalize", fun_args) :: post)
   = Raise TypeError).
Proof.
  split.
  - intros Hname (k & Hk & Hpar). unfold step_registry in Hname.
    rewrite !elem_of_cons in Hname.
    destruct Hname as [-> | [-> | [-> | Hnil]]];
      [| | |by apply elem_of_nil in Hnil];
      cbn [postprocess_ run_items];
      [change (module_getattr env "normalize") with (Ret FNormalize)
      |change (module_getattr env "impute") with (Ret FImpute)
      |change (module_getattr env "extract_channel")
         with (Ret FExtractChannel)];
      cbn [mbind result_bind call];
      by erewrite bind_kwargs_unexpected.
  - intros Hk. cbn [postprocess_ run_items].
    change (module_getattr env "normalize") with (Ret FNormalize).
    cbn [mbind result_bind call].
    erewrite bind_kwargs_missing; [done| |exact Hk].
    apply elem_of_cons. by left.
Qed.

End PipelineMore.

Lemma postprocess_keeps_mask_witness :
  Forall (fun step : string * kwargs =>
            step.1 = "normalize" ∨ step.1 = "impute") spec_normalize_impute ∧
  postprocess_ env_stats_example 1 img_example (np_zeros 1 2)
    spec_normalize_impute
  = Ret (img_normalized_example, np_zeros 1 2) ∧
  (img_normalized_example, np_zeros 1 2).2 = np_zeros 1 2.
Proof.
  assert (H : Forall (fun step : string * kwargs =>
                        step.1 = "normalize" ∨ step.1 = "impute")
                spec_normalize_impute).
  { constructor; [by left|]. constructor; [by right|]. constructor. }
  assert (Hrun : postprocess_ env_stats_example 1 img_example (np_zeros 1 2)
                   spec_normalize_impute
                 = Ret (img_normalized_example, np_zeros 1 2))
    by reflexivity.
  split_and!; [exact H|exact Hrun|].
  exact (postprocess_keeps_mask env_stats_example 1 spec_normalize_impute
           img_example (np_zeros 1 2) _ H Hrun).
Defined.

Lemma postprocess_keyword_arguments_witness :
  "impute" ∈ step_registry ∧
  (∃ k, k ∈ Dict.keys [("nan", AInt 0)] ∧ k ∉ parameters_of "impute") ∧
  postprocess_ env_example 1 img_example (np_zeros 1 2)
    [("impute", [("nan", AInt 0)]); ("extract_channel", [])]
  = Raise TypeError.
Proof.
  assert (Hn : "impute" ∈ step_registry).
  { apply elem_of_cons; right. apply elem_of_cons; by left. }
  assert (Hk : ∃ k, k ∈ Dict.keys [("nan", AInt 0)] ∧
                    k ∉ parameters_of "impute").
  { exists "nan". split; [apply elem_of_cons; by left|].
    intros [H|H]%elem_of_cons; [done|by apply elem_of_nil in H]. }
  split_and!; [exact Hn|exact Hk|].
  exact (proj1 (postprocess_keyword_arguments env_example 0 "impute"
                  [("nan", AInt 0)] [("extract_channel", [])]
                  img_example (np_zeros 1 2)) Hn Hk).
Defined.

(** ** The single-image variant: what else it leaves and what it returns *)

Section TileMore.
Variable env : environment.
Implicit Types (img mask : ndarray) (sp : spec).

Lemma keys_set_absent {V : Type} (d : list (string * V)) k v :
  Dict.get d k = None → Dict.keys (Dict.set d k v) = Dict.keys d ++ [k].
Proof.
  induction d as [|[k' v'] d IH]; simpl; intros Hk; [done|].
  destruct (String.eqb k' k) eqn:He; [done|].
  cbn. f_equal. by apply IH.
Qed.

(** X16: the assignment of [postprocess_tile] touches nothing but
    [extract_channel.mask_channels]: the other steps keep their
    arguments, [extract_channel] keeps its other arguments, and the
    steps keep their order, a missing [extract_channel] step being
    added last. *)
Theorem postprocess_tile_keeps_other_arguments frames img
    (process_funs : loc) (σ : gmap loc spec) sp :
  σ !! process_funs = Some sp →
  ∃ σ' r sp',
    postprocess_tile env frames img process_funs σ = Some (σ', r) ∧
    σ' !! process_funs = Some sp' ∧
    (∀ fun_name, fun_name ≠ "extract_channel" →
                 Dict.get sp' fun_name = Dict.get sp fun_name) ∧
    (∀ k, k ≠ "mask_channels" →
          (Dict.get sp' "extract_channel" ≫= fun a => Dict.get a k)
          = (Dict.get sp "extract_channel" ≫= fun a => Dict.get a k)) ∧
    Dict.keys sp'
    = match Dict.get sp "extract_channel" with
      | Some _ => Dict.keys sp
      | None => Dict.keys sp ++ ["extract_channel"]
      end.
Proof.
  intros Hsp. rewrite (postprocess_tile_run _ _ _ _ _ _ Hsp).
  eexists _, _, (set_mask_channels sp). split; [reflexivity|].
  split_and!.
  - apply lookup_insert_eq.
  - intros fun_name Hne. by apply set_mask_channels_frame.
  - intros k Hk. unfold set_mask_channels. rewrite get_set_eq. cbn.
    rewrite get_set_ne by done.
    by destruct (Dict.get sp "extract_channel").
  - unfold set_mask_channels.
    destruct (Dict.get sp "extract_channel") as [a|] eqn:Hec.
    + by apply keys_set_present.
    + by apply keys_set_absent.
Qed.

End TileMore.

Lemma postprocess_tile_keeps_other_arguments_witness :
  spec_store_example !! 0%nat = Some spec_two_mask_channels ∧
  ∃ σ' r sp',
    postprocess_tile env_example 1 img_example 0%nat spec_store_example
    = Some (σ', r) ∧
    σ' !! 0%nat = Some sp' ∧
    Dict.keys sp' = ["impute"; "extract_channel"].
Proof.
  split; [reflexivity|].
  destruct (postprocess_tile_keeps_other_arguments env_example 1 img_example
              0%nat spec_store_example spec_two_mask_channels eq_refl)
    as (σ' & r & sp' & Hrun & Hl & _ & _ & Hkeys).
  by exists σ', r, sp'.
Defined.

Section TileMask.
Variable env : environment.
Implicit Types (img mask : ndarray) (sp : spec).

Lemma norm_index_ret (c : nat) (k : Z) (j : nat) :
  norm_index c k = Ret j → (j < c)%nat.
Proof.
  destruct (decide (in_axis c k)) as [Hk|Hk].
  - destruct (norm_index_in_axis c k Hk) as [-> Hlt]. by intros [= <-].
  - by rewrite norm_index_out.
Qed.

Lemma mapM_norm_index_ret (c : nat) (ks : list Z) (js : list nat) :
  mapM (norm_index c) ks = Ret js → Forall (fun j => (j < c)%nat) js.
Proof.
  revert js. induction ks as [|k ks IH]; intros js; cbn [mapM].
  - intros [= <-]. constructor.
  - destruct (norm_index c k) as [j|] eqn:Hj; [|done].
    cbn [mbind result_bind].
    destruct (mapM (norm_index c) ks) as [js'|]; [|done].
    cbn [mbind result_bind]. intros [= <-].
    constructor; [by eapply norm_index_ret|by apply IH].
Qed.

Lemma map_lookup_zeros (c : nat) (js : list nat) :
  Forall (fun j => (j < c)%nat) js →
  map (fun j => default NaN (replicate c F.zero !! j)) js
  = replicate (length js) F.zero.
Proof.
  induction 1 as [|j js Hj _ IH]; [done|].
  cbn. rewrite lookup_replicate_2 by done. cbn. by rewrite IH.
Qed.

(** Indexing an all-zero array gives an all-zero array; an integer
    index drops the channel axis. *)
Lemma take_channels_zero (h w : nat) (m m' : ndarray) (ix : channel_index) :
  zero_mask h w m →
  take_channels m ix = Ret m' →
  zero_mask h w m' ∧
  (match ix with IxInt _ => shape2 m' = None | IxList _ => True end).
Proof.
  intros (Hdt & H0 & H1 & c & Hd & Hc). unfold take_channels, shape_2.
  destruct (shape2 m) as [c'|] eqn:Hs; [|done].
  destruct Hc as [[= ->]|[? _]]; [|done].
  cbn [mbind result_bind]. destruct ix as [k|ks].
  - destruct (norm_index c k) as [j|] eqn:Hj; [|done].
    cbn [mbind result_bind]. intros [= <-].
    split; [|done]. unfold zero_mask; cbn [dt shape0 shape1 shape2 data].
    split_and!; try done. exists 1%nat. split; [|by right].
    rewrite Hd.
    change (map ?f ?l) with (f <$> l). rewrite fmap_replicate. f_equal.
    change (map ?f ?l) with (f <$> l). rewrite fmap_replicate. f_equal.
    rewrite lookup_replicate_2 by (by eapply norm_index_ret). done.
  - destruct (mapM (norm_index c) ks) as [js|] eqn:Hjs; [|done].
    cbn [mbind result_bind]. intros [= <-].
    split; [|done]. unfold zero_mask; cbn [dt shape0 shape1 shape2 data].
    split_and!; try done. exists (length js). split; [|by left].
    rewrite Hd.
    change (map ?f ?l) with (f <$> l). rewrite fmap_replicate. f_equal.
    change (map ?f ?l) with (f <$> l). rewrite fmap_replicate. f_equal.
    apply map_lookup_zeros. by eapply mapM_norm_index_ret.
Qed.

Lemma extract_channel_zero (h w : nat) img mask mc ic r :
  extract_channel img mask mc ic = Ret r →
  zero_mask h w mask →
  zero_mask h w r.2 ∧
  (shape2 mask = None → shape2 r.2 = None) ∧
  (match mc with Some (IxInt _) => shape2 r.2 = None | _ => True end).
Proof.
  unfold extract_channel. intros Hrun Hz.
  assert (Hflat : shape2 mask = None →
                  ∀ ix, take_channels mask ix = Raise IndexError).
  { intros Hn ix. unfold take_channels, shape_2. by rewrite Hn. }
  destruct mc as [ix|].
  - cbn [mbind result_bind] in Hrun.
    destruct (match ic with Some ix0 => _ | None => _ end) as [ic'|];
      [|done].
    cbn [mbind result_bind] in Hrun.
    destruct (take_channels img ic') as [img'|]; [|done].
    cbn [mbind result_bind] in Hrun.
    destruct (take_channels mask ix) as [mask'|] eqn:Hm; [|done].
    cbn [mbind result_bind] in Hrun. injection Hrun as <-. cbn [snd].
    destruct (take_channels_zero h w mask mask' ix Hz Hm) as [Hz' Hix].
    split_and!; [done| |by destruct ix].
    intros Hn. by rewrite (Hflat Hn) in Hm.
  - unfold shape_2 in Hrun.
    destruct (shape2 mask) as [c|] eqn:Hs;
      [|by cbn [mbind result_bind] in Hrun].
    cbn [mbind result_bind] in Hrun.
    destruct (match ic with Some ix0 => _ | None => _ end) as [ic'|];
      [|done].
    cbn [mbind result_bind] in Hrun.
    destruct (take_channels img ic') as [img'|]; [|done].
    cbn [mbind result_bind] in Hrun.
    destruct (take_channels mask (IxList (arange c))) as [mask'|] eqn:Hm;
      [|done].
    cbn [mbind result_bind] in Hrun. injection Hrun as <-. cbn [snd].
    destruct (take_channels_zero h w mask mask' _ Hz Hm) as [Hz' _].
    split_and!; done.
Qed.

Lemma call_hands_on (h w : nat) nested fun_name f img mask fun_args r :
  (∀ img mask sp r, nested img mask sp = Ret r → hands_on h w mask r) →
  call env nested fun_name f img mask fun_args = Ret r →
  hands_on h w mask r.
Proof.
  intros Hnested Hcall Hz. destruct f; cbn [call] in Hcall.
  - destruct (bind_kwargs _ _ _); [|done]. cbn [mbind result_bind] in Hcall.
    destruct (as_path _); [|done]. cbn [mbind result_bind] in Hcall.
    apply normalize_mask_unchanged in Hcall. rewrite Hcall. by split.
  - destruct (bind_kwargs _ _ _); [|done]. cbn [mbind result_bind] in Hcall.
    destruct (as_float _); [|done]. cbn [mbind result_bind] in Hcall.
    injection Hcall as <-. by split.
  - destruct (bind_kwargs _ _ _); [|done]. cbn [mbind result_bind] in Hcall.
    destruct (as_channels (default ANone (Dict.get fun_args "mask_channels")))
      as [mc|]; [|by cbn [mbind result_bind] in Hcall].
    cbn [mbind result_bind] in Hcall.
    destruct (as_channels (default ANone (Dict.get fun_args "img_channels")))
      as [ic|]; [|by cbn [mbind result_bind] in Hcall].
    cbn [mbind result_bind] in Hcall.
    destruct (extract_channel_zero h w _ _ _ _ _ Hcall Hz) as (? & ? & _).
    by split.
  - destruct (bind_kwargs _ _ _); [|done]. cbn [mbind result_bind] in Hcall.
    destruct (default ANone _); try done. by eapply Hnested.
  - done.
  - done.
Qed.

Lemma run_items_hands_on (h w : nat) nested (items : spec) img mask r :
  (∀ img mask sp r, nested img mask sp = Ret r → hands_on h w mask r) →
  run_items env nested items img mask = Ret r →
  hands_on h w mask r.
Proof.
  intros Hnested. revert img mask.
  induction items as [|[name args] items IH]; intros img mask Hrun Hz.
  - cbn in Hrun. by injection Hrun as <-.
  - cbn [run_items] in Hrun.
    destruct (module_getattr env name) as [f|]; [|done].
    cbn [mbind result_bind] in Hrun.
    destruct (call env nested name f img mask args) as [[img1 mask1]|] eqn:Hc;
      [|done].
    cbn [mbind result_bind] in Hrun.
    destruct (call_hands_on h w _ _ _ _ _ _ _ Hnested Hc Hz) as [Hz1 Hf1].
    destruct (IH _ _ Hrun Hz1) as [Hz2 Hf2].
    split; [done|]. intros Hn. apply Hf2, Hf1, Hn.
Qed.

Lemma postprocess_hands_on (h w : nat) frames img mask sp r :
  postprocess_ env frames img mask sp = Ret r → hands_on h w mask r.
Proof.
  revert img mask sp r. induction frames as [|frames IH];
    intros img mask sp r; [done|].
  cbn [postprocess_]. apply run_items_hands_on. exact IH.
Qed.

Lemma set_splits {V : Type} (d : list (string * V)) k v :
  ∃ pre post, Dict.set d k v = pre ++ (k, v) :: post.
Proof.
  induction d as [|[k' v'] d (pre & post & IH)]; simpl.
  - by exists [], [].
  - destruct (String.eqb k' k).
    + by exists [], d.
    + exists ((k', v') :: pre), post. by rewrite IH.
Qed.

(** X17: whenever [postprocess_tile] returns, the mask it returns is
    the two-dimensional all-zero array of the image's height and
    width: the placeholder of shape (H, W, 1) loses its channel axis
    to the integer index the call wrote into the spec. *)
Theorem postprocess_tile_mask frames img (process_funs : loc)
    (σ σ' : gmap loc spec) img' mask' :
  postprocess_tile env frames img process_funs σ
  = Some (σ', Ret (img', mask')) →
  mask' = flat_zero_mask (shape0 img) (shape1 img).
Proof.
  unfold postprocess_tile.
  destruct (σ !! process_funs) as [sp|]; [|done]. cbn.
  intros [= _ Hrun].
  set (h := shape0 img) in *. set (w := shape1 img) in *.
  assert (Hz0 : zero_mask h w (np_zeros h w)).
  { unfold zero_mask, np_zeros; cbn. split_and!; try done.
    exists 1%nat. split; [done|by left]. }
  destruct frames as [|frames]; [done|].
  unfold set_mask_channels in Hrun.
  set (step := Dict.set _ "mask_channels" (AInt 0)) in Hrun.
  destruct (set_splits sp "extract_channel" step) as (pre & post & Hsplit).
  rewrite Hsplit in Hrun. cbn [postprocess_] in Hrun.
  rewrite run_items_app in Hrun.
  destruct (run_items env (postprocess_ env frames) pre img (np_zeros h w))
    as [[img1 mask1]|] eqn:Hpre; [|by cbn [mbind result_bind] in Hrun].
  cbn [mbind result_bind fst snd] in Hrun.
  destruct (run_items_hands_on h w _ _ _ _ _
              (postprocess_hands_on h w frames) Hpre Hz0) as [Hz1 _].
  cbn [run_items] in Hrun.
  change (module_getattr env "extract_channel")
    with (Ret FExtractChannel) in Hrun.
  cbn [mbind result_bind call] in Hrun.
  destruct (bind_kwargs _ _ step); [|by cbn [mbind result_bind] in Hrun].
  cbn [mbind result_bind] in Hrun.
  assert (Hmc : Dict.get step "mask_channels" = Some (AInt 0))
    by apply get_set_eq.
  rewrite Hmc in Hrun.
  cbn [default id as_channels mbind result_bind] in Hrun.
  destruct (as_channels _) as [ic|]; [|by cbn [mbind result_bind] in Hrun].
  cbn [mbind result_bind] in Hrun.
  destruct (extract_channel img1 mask1 (Some (IxInt 0)) ic)
    as [[img2 mask2]|] eqn:Hec; [|by cbn [mbind result_bind] in Hrun].
  cbn [mbind result_bind] in Hrun.
  destruct (extract_channel_zero h w _ _ _ _ _ Hec Hz1) as (Hz2 & _ & Hf2).
  cbn [snd] in *.
  destruct (run_items_hands_on h w _ _ _ _ _
              (postprocess_hands_on h w frames) Hrun Hz2) as [Hz3 Hf3].
  cbn [snd] in *. specialize (Hf3 Hf2).
  destruct Hz3 as (Hdt & H0 & H1 & c & Hd & Hc).
  destruct Hc as [Hc|[_ ->]]; [congruence|].
  destruct mask' as [t h' w' ch d]; cbn in *. subst. reflexivity.
Qed.

End TileMask.

Lemma postprocess_tile_mask_witness :
  ∃ σ' img' mask',
    postprocess_tile env_example 1 img_example 0%nat spec_store_example
    = Some (σ', Ret (img', mask')) ∧
    mask' = flat_zero_mask 1 2.
Proof.
  eexists _, _, _.
  assert (Hrun :
    postprocess_tile env_example 1 img_example 0%nat spec_store_example
    = Some (<[0%nat:=set_mask_channels spec_two_mask_channels]>
              spec_store_example,
            Ret (NdArray Float64 1 2 (Some 2%nat)
                   [[ [Fin 3; Fin 7]; [Fin 5; Fin 0] ]],
                 flat_zero_mask 1 2))) by reflexivity.
  split; [exact Hrun|].
  exact (postprocess_tile_mask env_example 1 img_example 0%nat
           spec_store_example _ _ _ Hrun).
Defined.

(** ** SampleAssembler: the constructor and the paths *)

Lemma select_present (row : gmap string string) (columns : list string) :
  Forall (fun c => is_Some (row !! c)) columns →
  select row columns = Ret (cell row <$> columns).
Proof.
  unfold select. induction 1 as [|c columns [v Hv] _ IH]; [done|].
  cbn [mapM]. rewrite Hv. cbn [mbind result_bind]. rewrite IH.
  cbn. unfold cell. by rewrite Hv.
Qed.


(** X18: for a mask variant given as a string and a row that has the
    seven path columns, [__getitem__] takes the image from
    [cropped_path] or [img_path] according to [use_cropped] alone, and
    the mask from the actual-debris column for [actual_debris] and
    from the default column for every other variant, in every mode. *)
Theorem getitem_paths_by_variant (self : GlacierDataset) (i : nat)
    (row : gmap string string) (variant : string) :
  catalog self !! i = Some row →
  mask_used self = VStr variant →
  Forall (fun c => is_Some (row !! c)) path_columns →
  getitem_paths self i
  = Ret (Path (base_dir self)
              (cell row (if use_cropped self then "cropped_path"
                         else "img_path")),
         Path (base_dir self)
              (cell row (mask_column variant (use_cropped self)))).
Proof.
  intros Hrow Hv Hcols. unfold getitem_paths, index. rewrite Hrow.
  cbn [mbind result_bind].
  rewrite Forall_forall in Hcols.
  assert (Hin : ∀ c, c ∈ path_columns → is_Some (row !! c)) by done.
  assert (Hp : Forall (fun c => is_Some (row !! c)) (pathes self)).
  { unfold pathes. rewrite Hv. cbn [PyVal.eq].
    destruct (String.eqb variant "actual_debris");
      repeat (constructor; [apply Hin; set_solver|]); constructor. }
  assert (Hc : Forall (fun c => is_Some (row !! c)) (cropped_pathes self)).
  { rewrite (cropped_pathes_of_string self variant Hv).
    destruct (String.eqb variant "actual_debris");
      repeat (constructor; [apply Hin; set_solver|]); constructor. }
  rewrite (select_present row _ Hp). cbn [mbind result_bind].
  unfold pathes. rewrite Hv. cbn [PyVal.eq]. unfold mask_column.
  destruct (String.eqb variant "actual_debris") eqn:He; cbn [fmap list_fmap].
  - destruct (use_cropped self); [|done].
    rewrite (select_present row _ Hc), (cropped_pathes_of_string self _ Hv), He.
    done.
  - destruct (use_cropped self); [|done].
    rewrite (select_present row _ Hc), (cropped_pathes_of_string self _ Hv), He.
    done.
Qed.


Lemma getitem_paths_by_variant_witness :
  catalog (dataset_example "test") !! 0%nat = Some catalog_row_example ∧
  mask_used (dataset_example "test") = VStr "debris_glaciers" ∧
  Forall (fun c => is_Some (catalog_row_example !! c)) path_columns ∧
  getitem_paths (dataset_example "test") 0
  = Ret (Path "/data" "crop/img_0.npy", Path "/data" "crop/label_0.npy").
Proof.
  assert (Hc : Forall (fun c => is_Some (catalog_row_example !! c))
                 path_columns).
  { repeat (constructor; [by eexists|]). constructor. }
  split_and!; [reflexivity|reflexivity|exact Hc|].
  exact (getitem_paths_by_variant (dataset_example "test") 0
           catalog_row_example "debris_glaciers" eq_refl eq_refl Hc).
Defined.


Section ConstructorFacts.
Implicit Types (args : init_args) (table : list catalog_entry)
  (self : dataset_object).

Lemma filter_all {A : Type} (P : A → Prop) `{∀ x, Decision (P x)}
    (l : list A) :
  Forall P l → filter P l = l.
Proof.
  induction 1 as [|x l Hx _ IH]; [done|].
  by rewrite filter_cons_True, IH.
Qed.

Lemma restrict_selected {A : Type} `{EqDecision A}
    (column : catalog_entry → A) (sel : selector A) table table' :
  (if not_all sel then restrict column sel table else Ret table) = Ret table' →
  selected column sel table table'.
Proof.
  unfold selected. destruct (not_all sel) eqn:Hn.
  - destruct sel as [s|values]; [done|]. cbn. intros [= <-].
    right. by exists values.
  - intros [= <-]. by left.
Qed.

Lemma selected_sublist {A : Type} `{EqDecision A}
    (column : catalog_entry → A) (sel : selector A) table table' :
  selected column sel table table' → table' `sublist_of` table.
Proof.
  intros [[_ ->]|(values & _ & ->)]; [done|apply sublist_filter].
Qed.

Lemma by_mask_used_sublist (mask_used : pyval) (mode : string) table :
  by_mask_used mask_used mode table `sublist_of` table.
Proof.
  unfold by_mask_used.
  destruct (PyVal.eq mask_used (VStr "actual_debris"));
    [apply sublist_filter|].
  destruct (PyVal.eq mask_used (VStr "debris_glaciers")); [|done].
  destruct (negb (String.eqb mode "train")); [|apply sublist_filter].
  etrans; apply sublist_filter.
Qed.

(** The stages of the constructor, for a call that returns. *)
Lemma init_stages args table self :
  init args table = Ret self →
  ∃ data1 data2,
    data1 = by_mask_used (arg_mask_used args) (arg_mode args)
              (filter (fun d => train_tag d = arg_mode args) table) ∧
    selected country_tag (arg_country args) data1 data2 ∧
    selected year_tag (arg_year args) data2 (entries self) ∧
    catalog (paths_view self) = cells <$> entries self ∧
    mode (paths_view self) = arg_mode args ∧
    mask_used (paths_view self) = arg_mask_used args ∧
    use_cropped (paths_view self) = arg_use_cropped args.
Proof.
  unfold init.
  set (data1 := by_mask_used _ _ _).
  destruct (if not_all (arg_country args) then _ else _)
    as [data2|] eqn:Hc; [|done].
  cbn [mbind result_bind].
  destruct (if not_all (arg_year args) then _ else _)
    as [data3|] eqn:Hy; [|done].
  cbn [mbind result_bind]. intros [= <-]. cbn.
  exists data1, data2. split_and!; try done.
  - by apply restrict_selected.
  - by apply restrict_selected.
Qed.

Lemma init_sublist args table self :
  init args table = Ret self →
  entries self `sublist_of`
    filter (fun d => train_tag d = arg_mode args) table.
Proof.
  intros (data1 & data2 & -> & Hc & Hy & _)%init_stages.
  etrans; [by eapply selected_sublist|].
  etrans; [by eapply selected_sublist|].
  apply by_mask_used_sublist.
Qed.

(** X20: the dataset holds a sub-sequence of the table, in its order,
    made of rows tagged with the mode only; [__len__] counts them, and
    it is the number of rows [__getitem__] can reach. *)
Theorem init_keeps_mode args table self :
  init args table = Ret self →
  entries self `sublist_of` table ∧
  Forall (fun d => train_tag d = arg_mode args) (entries self) ∧
  (len self ≤ length table)%nat ∧
  (∀ i, is_Some (catalog (paths_view self) !! i) ↔ (i < len self)%nat).
Proof.
  intros Hinit. pose proof (init_sublist _ _ _ Hinit) as Hsub.
  assert (Hsub' : entries self `sublist_of` table).
  { etrans; [exact Hsub|apply sublist_filter]. }
  split_and!.
  - done.
  - apply Forall_forall. intros d Hd.
    apply sublist_subseteq in Hsub.
    apply Hsub in Hd. by apply list_elem_of_filter in Hd as [? _].
  - by apply sublist_length.
  - intros i. apply init_stages in Hinit as (_ & _ & _ & _ & _ & -> & _).
    unfold len. rewrite <- (length_fmap cells). apply lookup_lt_is_Some.
Qed.

(** X21: for the dev and the test set the country and year lists
    select nothing: the dataset is the one built with ['all'] for
    both. *)
Theorem init_eval_ignores_selectors (base : string) (ch : option (list Z))
    (m : string) (uc ue us : bool) (mu : pyval)
    (countries : list string) (years : list Z) table :
  m ∈ ["dev"; "test"] →
  init (InitArgs base ch m uc ue us mu (SelList countries) (SelList years))
       table
  = init (InitArgs base ch m uc ue us mu (SelStr "all") (SelStr "all")) table.
Proof.
  intros Hm. unfold init; cbn [arg_mode arg_mask_used arg_country arg_year
    arg_base_dir arg_channels_to_inc arg_use_cropped arg_use_elev
    arg_use_slope not_all restrict].
  change (String.eqb "all" "all") with true. cbn [negb].
  set (data1 := by_mask_used _ _ _).
  assert (H1 : Forall (fun d => train_tag d = m) data1).
  { apply Forall_forall. intros d Hd.
    pose proof (by_mask_used_sublist mu m
                  (filter (fun d => train_tag d = m) table)) as Hsub.
    apply sublist_subseteq in Hsub.
    apply Hsub in Hd. by apply list_elem_of_filter in Hd as [? _]. }
  assert (Hkeep : ∀ {A} `{EqDecision A} (column : catalog_entry → A) values,
            filter (fun d => isin (train_tag d) ["dev"; "test"]
                             || isin (column d) values = true) data1 = data1).
  { intros A ? column values. apply filter_all.
    eapply Forall_impl; [exact H1|]. intros d ->. cbn.
    unfold isin at 1. by rewrite bool_decide_eq_true_2. }
  cbn [mbind result_bind]. rewrite Hkeep. cbn [mbind result_bind].
  by rewrite Hkeep.
Qed.

(** X22: under [actual_debris] every row of the dataset has actual
    debris; under [debris_glaciers] every row has pseudo debris, and
    outside the training set actual debris as well. *)
Theorem init_debris_rows args table self :
  init args table = Ret self →
  (arg_mask_used args = VStr "actual_debris" →
   Forall (fun d => F.gt (actual_debris_perc d) F.zero = true)
          (entries self)) ∧
  (arg_mask_used args = VStr "debris_glaciers" →
   Forall (fun d => F.gt (pseudo_debris_perc d) F.zero = true)
          (entries self) ∧
   (arg_mode args ≠ "train" →
    Forall (fun d => F.gt (actual_debris_perc d) F.zero = true)
           (entries self))).
Proof.
  intros Hinit.
  apply init_stages in Hinit as (data1 & data2 & H1 & Hc & Hy & _).
  assert (Hsub : entries self `sublist_of` data1).
  { etrans; by eapply selected_sublist. }
  apply sublist_subseteq in Hsub.
  split.
  - intros Hmu. apply Forall_forall. intros d Hd%Hsub.
    subst data1. unfold by_mask_used in Hd. rewrite Hmu in Hd.
    cbn in Hd. by apply list_elem_of_filter in Hd as [? _].
  - intros Hmu. split.
    + apply Forall_forall. intros d Hd%Hsub.
      subst data1. unfold by_mask_used in Hd. rewrite Hmu in Hd.
      cbn [PyVal.eq] in Hd.
      change (String.eqb "debris_glaciers" "actual_debris") with false in Hd.
      change (String.eqb "debris_glaciers" "debris_glaciers") with true in Hd.
      cbn match in Hd.
      destruct (negb (String.eqb (arg_mode args) "train")).
      * apply list_elem_of_filter in Hd as [_ Hd].
        by apply list_elem_of_filter in Hd as [? _].
      * by apply list_elem_of_filter in Hd as [? _].
    + intros Hmode. apply Forall_forall. intros d Hd%Hsub.
      subst data1. unfold by_mask_used in Hd. rewrite Hmu in Hd.
      cbn [PyVal.eq] in Hd.
      change (String.eqb "debris_glaciers" "actual_debris") with false in Hd.
      change (String.eqb "debris_glaciers" "debris_glaciers") with true in Hd.
      cbn match in Hd.
      rewrite (proj2 (String.eqb_neq _ _) Hmode) in Hd. cbn in Hd.
      by apply list_elem_of_filter in Hd as [? _].
Qed.

(** X23: outside the dev and test sets a country list and a year list
    restrict the dataset to rows of those countries and years; a
    country given as a string other than ['all'] is a [TypeError]. *)
Theorem init_train_selectors args table :
  (∀ self,
     init args table = Ret self →
     arg_mode args ∉ ["dev"; "test"] →
     (∀ countries, arg_country args = SelList countries →
        Forall (fun d => country_tag d ∈ countries) (entries self)) ∧
     (∀ years, arg_year args = SelList years →
        Forall (fun d => year_tag d ∈ years) (entries self))) ∧
  (∀ s, arg_country args = SelStr s → s ≠ "all" →
        init args table = Raise TypeError).
Proof.
  split.
  - intros self Hinit Hmode.
    pose proof (init_keeps_mode _ _ _ Hinit) as (_ & Htag & _).
    rewrite Forall_forall in Htag.
    apply init_stages in Hinit as (data1 & data2 & H1 & Hc & Hy & _).
    assert (Hsub : entries self `sublist_of` data2)
      by (by eapply selected_sublist).
    apply sublist_subseteq in Hsub.
    split.
    + intros countries Hsel. apply Forall_forall. intros d Hd.
      pose proof (Htag d Hd) as Ht. apply Hsub in Hd.
      destruct Hc as [[Hn _]|(values & Hv & ->)];
        [by rewrite Hsel in Hn|].
      rewrite Hsel in Hv. injection Hv as <-.
      apply list_elem_of_filter in Hd as [Hd _].
      apply orb_true_iff in Hd as [Hd|Hd].
      * unfold isin in Hd. apply bool_decide_eq_true_1 in Hd.
        by rewrite Ht in Hd.
      * unfold isin in Hd. by apply bool_decide_eq_true_1 in Hd.
    + intros years Hsel. apply Forall_forall. intros d Hd.
      pose proof (Htag d Hd) as Ht.
      destruct Hy as [[Hn _]|(values & Hv & Heq)];
        [by rewrite Hsel in Hn|].
      rewrite Hsel in Hv. injection Hv as <-. rewrite Heq in Hd.
      apply list_elem_of_filter in Hd as [Hd _].
      apply orb_true_iff in Hd as [Hd|Hd].
      * unfold isin in Hd. apply bool_decide_eq_true_1 in Hd.
        by rewrite Ht in Hd.
      * unfold isin in Hd. by apply bool_decide_eq_true_1 in Hd.
  - intros s Hsel Hs. unfold init. rewrite Hsel. cbn [not_all].
    by rewrite (proj2 (String.eqb_neq _ _) Hs).
Qed.

End ConstructorFacts.

Lemma init_keeps_mode_witness :
  ∃ self,
    init (init_args_example "dev" (SelStr "all")) table_example = Ret self ∧
    len self = 1%nat ∧
    Forall (fun d => train_tag d = "dev") (entries self).
Proof.
  eexists. split; [reflexivity|]. split; [reflexivity|].
  exact (proj1 (proj2 (init_keeps_mode
           (init_args_example "dev" (SelStr "all")) table_example _ eq_refl))).
Defined.

Lemma init_eval_ignores_selectors_witness :
  "dev" ∈ ["dev"; "test"] ∧
  init (InitArgs "/data" None "dev" true true true (VStr "glacier")
          (SelList ["bhutan"]) (SelList [2005])) table_example
  = init (InitArgs "/data" None "dev" true true true (VStr "glacier")
            (SelStr "all") (SelStr "all")) table_example.
Proof.
  assert (H : "dev" ∈ ["dev"; "test"]) by (apply elem_of_cons; by left).
  split; [exact H|].
  exact (init_eval_ignores_selectors "/data" None "dev" true true true
           (VStr "glacier") ["bhutan"] [2005] table_example H).
Defined.

Lemma init_debris_rows_witness :
  ∃ self,
    init (init_args_example "dev" (SelStr "all")) table_example = Ret self ∧
    arg_mask_used (init_args_example "dev" (SelStr "all"))
    = VStr "debris_glaciers" ∧
    Forall (fun d => F.gt (pseudo_debris_perc d) F.zero = true)
           (entries self).
Proof.
  eexists. split; [reflexivity|]. split; [reflexivity|].
  exact (proj1 (proj2 (init_debris_rows
           (init_args_example "dev" (SelStr "all")) table_example _ eq_refl)
           eq_refl)).
Defined.

Lemma init_train_selectors_witness :
  ∃ self,
    init (init_args_example "train" (SelList ["nepal"])) table_example
    = Ret self ∧
    ("train" ∉ ["dev"; "test"]) ∧
    Forall (fun d => country_tag d ∈ ["nepal"]) (entries self).
Proof.
  assert (Hm : "train" ∉ ["dev"; "test"]).
  { intros [H|[H|H]%elem_of_cons]%elem_of_cons; try done.
    by apply elem_of_nil in H. }
  eexists. split; [reflexivity|]. split; [exact Hm|].
  exact (proj1 (proj1 (init_train_selectors
           (init_args_example "train" (SelList ["nepal"])) table_example)
           _ eq_refl Hm) ["nepal"] eq_refl).
Defined.

(** ** Reshuffler *)

Section ReshufflerFacts.
Variable resolve : list string → string.
Implicit Types (fs : filesystem) (split_ids : list (string * list path_pair))
  (sources : list (string * string)).

Lemma copy_one_cases output_dir split_type source fs :
  copy_one resolve output_dir split_type source fs
  = let target := target_of resolve output_dir split_type source in
    match file_contents fs !! resolve [source] with
    | None => (fs, Raise (FileNotFoundError source))
    | Some content =>
        if decide (resolve [source] = target) then (fs, Raise OSError)
        else if decide (target ∈ directories fs) then (fs, Raise OSError)
        else (FileSystem (<[target:=content]> (file_contents fs))
                         (directories fs), Ret target)
    end.
Proof.
  unfold copy_one, io_bind, copyfile, io_ret. cbv zeta.
  destruct (file_contents fs !! resolve [source]); [|done].
  repeat case_decide; done.
Qed.

Lemma copy_one_ok output_dir split_type source fs content :
  file_contents fs !! resolve [source] = Some content →
  resolve [source] ≠ target_of resolve output_dir split_type source →
  target_of resolve output_dir split_type source ∉ directories fs →
  copy_one resolve output_dir split_type source fs
  = (FileSystem (<[target_of resolve output_dir split_type source:=content]>
                   (file_contents fs)) (directories fs),
     Ret (target_of resolve output_dir split_type source)).
Proof.
  intros Hc Hne Hd. rewrite copy_one_cases. cbv zeta. rewrite Hc.
  by rewrite !decide_False.
Qed.


(** What one copy does to the state, in every outcome. *)
Lemma copy_one_state output_dir split_type source fs fs' r :
  copy_one resolve output_dir split_type source fs = (fs', r) →
  directories fs' = directories fs ∧
  (match r with
   | Ret t =>
       t = target_of resolve output_dir split_type source ∧
       resolve [source] ≠ t ∧
       file_contents fs' = <[t:=default "" (file_contents fs
                                              !! resolve [source])]>
                             (file_contents fs) ∧
       is_Some (file_contents fs !! resolve [source])
   | Raise _ => fs' = fs
   end).
Proof.
  rewrite copy_one_cases. cbv zeta.
  destruct (file_contents fs !! resolve [source]) as [c|] eqn:Hc.
  - repeat case_decide; intros [= <- <-]; cbn; eauto 10.
  - by intros [= <- <-].
Qed.

Lemma copy_flat_app output_dir sources1 sources2 fs :
  copy_flat resolve output_dir (sources1 ++ sources2) fs
  = match copy_flat resolve output_dir sources1 fs with
    | (fs', Ret _) => copy_flat resolve output_dir sources2 fs'
    | (fs', Raise e) => (fs', Raise e)
    end.
Proof.
  revert fs. induction sources1 as [|[k s] l IH]; intros fs; [done|].
  cbn [app copy_flat]. unfold io_bind.
  destruct (copy_one resolve output_dir k s fs) as [fs1 [t|e]]; [|done].
  apply IH.
Qed.

Lemma same_outcome_bind {X Y : Type} (m : io X) (k : X → io Y)
    output_dir sources1 sources2 fs :
  (∀ fs, same_outcome (m fs) (copy_flat resolve output_dir sources1 fs)) →
  (∀ x fs, same_outcome (k x fs)
                        (copy_flat resolve output_dir sources2 fs)) →
  same_outcome (io_bind m k fs)
               (copy_flat resolve output_dir (sources1 ++ sources2) fs).
Proof.
  intros H1 H2. rewrite copy_flat_app. unfold io_bind.
  destruct (H1 fs) as [Hfs Hr].
  destruct (m fs) as [fs1 [x|e]],
    (copy_flat resolve output_dir sources1 fs) as [fs1' [[]|e']];
    cbn in *; subst; try done; apply H2.
Qed.

Lemma same_outcome_ret {X : Type} (x : X) output_dir fs :
  same_outcome (io_ret x fs) (copy_flat resolve output_dir [] fs).
Proof. done. Qed.

Lemma copy_one_flat output_dir split_type source fs :
  same_outcome (copy_one resolve output_dir split_type source fs)
               (copy_flat resolve output_dir [(split_type, source)] fs).
Proof.
  cbn [copy_flat]. unfold io_bind, io_ret.
  by destruct (copy_one resolve output_dir split_type source fs)
    as [fs1 [t|e]].
Qed.

Lemma copy_pair_flat output_dir split_type p fs :
  same_outcome (copy_pair resolve output_dir split_type p fs)
               (copy_flat resolve output_dir (pair_sources split_type p) fs).
Proof.
  unfold copy_pair, pair_sources.
  apply (same_outcome_bind _ _ _ [(split_type, img p)] [(split_type, mask p)]).
  - intros fs1. apply copy_one_flat.
  - intros t fs1.
    apply (same_outcome_bind _ _ _ [(split_type, mask p)] []).
    + intros fs2. apply copy_one_flat.
    + intros t' fs2. apply same_outcome_ret.
Qed.

Lemma copy_split_flat output_dir split_type pairs fs :
  same_outcome (copy_split resolve output_dir split_type pairs fs)
               (copy_flat resolve output_dir
                  (flat_map (pair_sources split_type) pairs) fs).
Proof.
  revert fs. induction pairs as [|p pairs IH]; intros fs; [done|].
  cbn [copy_split flat_map].
  apply same_outcome_bind; [intros fs1; apply copy_pair_flat|].
  intros locs fs1.
  rewrite <- (app_nil_r (flat_map _ pairs)).
  apply same_outcome_bind; [exact IH|].
  intros ? ?. apply same_outcome_ret.
Qed.

Lemma copy_splits_flat output_dir split_ids fs :
  same_outcome (copy_splits resolve output_dir split_ids fs)
               (copy_flat resolve output_dir (flat_sources split_ids) fs).
Proof.
  revert fs. induction split_ids as [|[k pairs] split_ids IH]; intros fs;
    [done|].
  cbn [copy_splits flat_sources flat_map].
  apply same_outcome_bind; [intros fs1; apply copy_split_flat|].
  intros locs fs1.
  rewrite <- (app_nil_r (flat_map _ split_ids)).
  apply same_outcome_bind; [exact IH|].
  intros ? ?. apply same_outcome_ret.
Qed.

(** The copies leave the directories alone, touch no file outside
    their targets, and remove no file. *)
Lemma copy_flat_frame output_dir sources fs fs' r :
  copy_flat resolve output_dir sources fs = (fs', r) →
  directories fs' = directories fs ∧
  (∀ path, path ∉ targets resolve output_dir sources →
           file_contents fs' !! path = file_contents fs !! path) ∧
  (∀ path, is_Some (file_contents fs !! path) →
           is_Some (file_contents fs' !! path)).
Proof.
  revert fs. induction sources as [|[k s] l IH]; intros fs.
  - cbn. by intros [= <- <-].
  - cbn [copy_flat]. unfold io_bind.
    destruct (copy_one resolve output_dir k s fs) as [fs1 [t|e]] eqn:H1.
    + intros Hrest. apply copy_one_state in H1 as (Hd & -> & _ & Hf & _).
      destruct (IH _ Hrest) as (Hd' & Hout & Hkeep).
      split_and!.
      * congruence.
      * intros path Hpath. cbn in Hpath.
        rewrite Hout by (intros ?; apply Hpath; by right).
        rewrite Hf. apply lookup_insert_ne.
        intros <-. apply Hpath. by left.
      * intros path Hsome. apply Hkeep. rewrite Hf.
        destruct (decide (target_of resolve output_dir k s = path))
          as [->|Hne].
        -- rewrite lookup_insert_eq. by eexists.
        -- by rewrite lookup_insert_ne.
    + intros [= <- <-]. apply copy_one_state in H1 as (Hd & ->). done.
Qed.

(** When the targets are pairwise distinct and none of them is a
    source, every target ends up with what its source held. *)
Lemma copy_flat_contents output_dir sources fs fs' :
  copy_flat resolve output_dir sources fs = (fs', Ret tt) →
  NoDup (targets resolve output_dir sources) →
  Forall (fun ks => resolve [ks.2] ∉ targets resolve output_dir sources)
         sources →
  Forall (fun ks =>
            is_Some (file_contents fs !! resolve [ks.2]) ∧
            file_contents fs' !! target_of resolve output_dir ks.1 ks.2
            = file_contents fs !! resolve [ks.2]) sources.
Proof.
  revert fs. induction sources as [|[k s] l IH]; intros fs; [constructor|].
  cbn [copy_flat targets map]. unfold io_bind.
  destruct (copy_one resolve output_dir k s fs) as [fs1 [t|e]] eqn:H1;
    [|done].
  intros Hrest Hnd Hsrc.
  apply copy_one_state in H1 as (Hd & -> & Hne & Hf & [c Hc]).
  apply NoDup_cons in Hnd as [Hfresh Hnd].
  apply Forall_cons in Hsrc as [Hs Hsrc]. cbn [fst snd] in *.
  destruct (copy_flat_frame _ _ _ _ _ Hrest) as (_ & Hout & _).
  constructor.
  - cbn [fst snd]. split; [by eexists|].
    rewrite (Hout _ Hfresh), Hf, lookup_insert_eq, Hc. done.
  - assert (Hsrc' : Forall (fun ks => resolve [ks.2]
                              ∉ targets resolve output_dir l) l).
    { eapply Forall_impl; [exact Hsrc|]. intros ks Hks Hin.
      apply Hks. cbn. by right. }
    pose proof (IH _ Hrest Hnd Hsrc') as Hall.
    rewrite Forall_forall in Hall, Hsrc. apply Forall_forall.
    intros ks Hks. destruct (Hall ks Hks) as [Hsome Heq].
    assert (Hks' : resolve [ks.2] ≠ target_of resolve output_dir k s).
    { intros Heq'. apply (Hsrc ks Hks). rewrite Heq'. cbn.
      apply elem_of_cons. by left. }
    rewrite Hf, lookup_insert_ne in Hsome, Heq by done. done.
Qed.

Lemma make_split_dirs_state output_dir split_ids fs fs' r :
  make_split_dirs resolve output_dir split_ids fs = (fs', r) →
  file_contents fs' = file_contents fs ∧
  directories fs ⊆ directories fs' ∧
  (r = Ret tt →
   Forall (fun kp => resolve [output_dir; kp.1] ∈ directories fs')
          split_ids).
Proof.
  revert fs. induction split_ids as [|[k pairs] split_ids IH]; intros fs.
  - cbn. intros [= <- <-]. split_and!; [done|done|]. by constructor.
  - cbn [make_split_dirs]. unfold io_bind, makedirs at 1.
    destruct (file_contents fs !! resolve [output_dir; k]).
    + intros [= <- <-]. done.
    + intros Hrest. destruct (IH _ Hrest) as (Hf & Hd & Hall).
      cbn in Hf, Hd. split_and!; [done| |].
      * intros x Hx. apply Hd, elem_of_union. by right.
      * intros Hr. constructor; [|by apply Hall].
        cbn. apply Hd, elem_of_union. left. by apply elem_of_singleton.
Qed.

Lemma copy_split_ret output_dir split_type pairs fs fs' locs :
  copy_split resolve output_dir split_type pairs fs = (fs', Ret locs) →
  locs = map (fun p => PathPair
                (target_of resolve output_dir split_type (img p))
                (target_of resolve output_dir split_type (mask p))) pairs.
Proof.
  revert fs fs' locs. induction pairs as [|p pairs IH]; intros fs fs' locs.
  - cbn. by intros [= _ <-].
  - cbn [copy_split map]. unfold io_bind at 1. unfold copy_pair, io_bind at 1.
    destruct (copy_one resolve output_dir split_type (img p) fs)
      as [fs1 [ti|e]] eqn:Hi; [|done].
    unfold io_bind at 1.
    destruct (copy_one resolve output_dir split_type (mask p) fs1)
      as [fs2 [tm|e]] eqn:Hm; [|done].
    cbn [io_ret]. unfold io_bind at 1.
    destruct (copy_split resolve output_dir split_type pairs fs2)
      as [fs3 [locs'|e]] eqn:Hrest; [|done].
    cbn. intros [= _ <-].
    apply copy_one_state in Hi as (_ & -> & _).
    apply copy_one_state in Hm as (_ & -> & _).
    by rewrite (IH _ _ _ Hrest).
Qed.

Lemma copy_splits_ret output_dir split_ids fs fs' locs :
  copy_splits resolve output_dir split_ids fs = (fs', Ret locs) →
  locs = locations resolve output_dir split_ids.
Proof.
  revert fs fs' locs. induction split_ids as [|[k pairs] split_ids IH];
    intros fs fs' locs.
  - cbn. by intros [= _ <-].
  - cbn [copy_splits locations map]. unfold io_bind at 1.
    destruct (copy_split resolve output_dir k pairs fs)
      as [fs1 [l1|e]] eqn:H1; [|done].
    unfold io_bind at 1.
    destruct (copy_splits resolve output_dir split_ids fs1)
      as [fs2 [l2|e]] eqn:H2; [|done].
    cbn. intros [= _ <-].
    by rewrite (copy_split_ret _ _ _ _ _ _ H1), (IH _ _ _ H2).
Qed.

(** [reshuffle] as the directory loop followed by the copies. *)
Lemma reshuffle_phases split_ids output_dir fs fs' r :
  reshuffle resolve split_ids output_dir fs = (fs', r) →
  ∃ fs1 r1,
    make_split_dirs resolve output_dir split_ids fs = (fs1, r1) ∧
    match r1 with
    | Ret _ => copy_splits resolve output_dir split_ids fs1 = (fs', r)
    | Raise e => fs' = fs1 ∧ r = Raise e
    end.
Proof.
  unfold reshuffle, io_bind.
  destruct (make_split_dirs resolve output_dir split_ids fs)
    as [fs1 [[]|e]]; intros H; eexists _, _; (split; [reflexivity|]).
  - done.
  - by injection H as <- <-.
Qed.

(** X24: when [reshuffle] returns, the mapping it returns has the
    splits of the input in their order, one entry per input pair in
    its order, each naming the resolved path of the source's base name
    under the split's directory. *)
Theorem reshuffle_locations split_ids output_dir fs fs' locs :
  reshuffle resolve split_ids output_dir fs = (fs', Ret locs) →
  locs = locations resolve output_dir split_ids ∧
  map fst locs = map fst split_ids ∧
  Forall2 (fun l kp => length l.2 = length kp.2) locs split_ids.
Proof.
  intros (fs1 & r1 & _ & Hcopy)%reshuffle_phases.
  destruct r1 as [[]|e]; [|by destruct Hcopy].
  apply copy_splits_ret in Hcopy as ->. split; [done|].
  unfold locations. split.
  - rewrite map_map. apply map_ext. by intros [k pairs].
  - induction split_ids as [|[k pairs] l IH]; constructor; [|done].
    cbn. by rewrite length_map.
Qed.

(** X25: in every outcome, [reshuffle] changes no file outside the
    target paths, removes no file, and keeps every directory. *)
Theorem reshuffle_frame split_ids output_dir fs fs' r :
  reshuffle resolve split_ids output_dir fs = (fs', r) →
  (∀ path, path ∉ targets resolve output_dir (flat_sources split_ids) →
           file_contents fs' !! path = file_contents fs !! path) ∧
  (∀ path, is_Some (file_contents fs !! path) →
           is_Some (file_contents fs' !! path)) ∧
  directories fs ⊆ directories fs'.
Proof.
  intros (fs1 & r1 & Hdirs & Hcopy)%reshuffle_phases.
  apply make_split_dirs_state in Hdirs as (Hf1 & Hd1 & _).
  destruct r1 as [[]|e].
  - pose proof (copy_splits_flat output_dir split_ids fs1) as [Hst _].
    rewrite Hcopy in Hst. cbn in Hst.
    destruct (copy_flat resolve output_dir (flat_sources split_ids) fs1)
      as [fs2 r2] eqn:Hflat. cbn in Hst. subst fs2.
    apply copy_flat_frame in Hflat as (Hd & Hout & Hkeep).
    rewrite Hf1 in Hout, Hkeep. split_and!; [done|done|].
    by rewrite Hd.
  - destruct Hcopy as [-> ->]. by rewrite Hf1.
Qed.

(** X26: when [reshuffle] returns, the target paths are pairwise
    distinct and none of them is one of the sources, every target
    holds what its source held before the call, and the directory of
    every split exists. *)
Theorem reshuffle_copies split_ids output_dir fs fs' locs :
  reshuffle resolve split_ids output_dir fs = (fs', Ret locs) →
  NoDup (targets resolve output_dir (flat_sources split_ids)) →
  Forall (fun ks => resolve [ks.2]
                    ∉ targets resolve output_dir (flat_sources split_ids))
         (flat_sources split_ids) →
  Forall (fun ks =>
            is_Some (file_contents fs !! resolve [ks.2]) ∧
            file_contents fs' !! target_of resolve output_dir ks.1 ks.2
            = file_contents fs !! resolve [ks.2])
         (flat_sources split_ids) ∧
  Forall (fun kp => resolve [output_dir; kp.1] ∈ directories fs') split_ids.
Proof.
  intros (fs1 & r1 & Hdirs & Hcopy)%reshuffle_phases Hnd Hsrc.
  destruct r1 as [[]|e]; [|by destruct Hcopy].
  apply make_split_dirs_state in Hdirs as (Hf1 & Hd1 & Hall).
  pose proof (copy_splits_flat output_dir split_ids fs1) as [Hst Hr].
  rewrite Hcopy in Hst, Hr. cbn in Hst, Hr.
  destruct (copy_flat resolve output_dir (flat_sources split_ids) fs1)
    as [fs2 [[]|e]] eqn:Hflat; [|done]. cbn in Hst. subst fs2.
  split.
  - pose proof (copy_flat_contents _ _ _ _ Hflat Hnd Hsrc) as Hc.
    by rewrite Hf1 in Hc.
  - apply copy_flat_frame in Hflat as (Hd & _ & _). rewrite Hd.
    by apply Hall.
Qed.

(** X27: an image and a mask with the same base name collide: both
    are copied to the one target, the mask last, so the returned pair
    names one path twice and the file there holds the mask. *)
Theorem reshuffle_same_basename split_type (p : path_pair) output_dir fs
    (img_content mask_content : string) :
  OsPath.basename (img p) = OsPath.basename (mask p) →
  file_contents fs !! resolve [img p] = Some img_content →
  file_contents fs !! resolve [mask p] = Some mask_content →
  let target := target_of resolve output_dir split_type (img p) in
  resolve [img p] ≠ target → resolve [mask p] ≠ target →
  target ∉ directories fs → target ≠ resolve [output_dir; split_type] →
  file_contents fs !! resolve [output_dir; split_type] = None →
  ∃ fs',
    reshuffle resolve [(split_type, [p])] output_dir fs
    = (fs', Ret [(split_type, [PathPair target target])]) ∧
    file_contents fs' !! target = Some mask_content.
Proof.
  intros Hbase Hi Hm target Hni Hnm Hdir Hnd Hfree.
  assert (Htm : target_of resolve output_dir split_type (mask p) = target).
  { unfold target, target_of. by rewrite Hbase. }
  unfold reshuffle, io_bind at 1. cbn [make_split_dirs].
  unfold io_bind at 1, makedirs. rewrite Hfree. cbn [io_ret].
  cbn [copy_splits copy_split]. unfold io_bind at 1 2, copy_pair, io_bind at 1.
  assert (Hfresh : target ∉ {[resolve [output_dir; split_type]]}
                             ∪ directories fs).
  { intros [H%elem_of_singleton|H]%elem_of_union; done. }
  rewrite (copy_one_ok _ _ _ _ img_content); cbn [file_contents directories];
    [|done|done|exact Hfresh].
  unfold io_bind at 1. fold target.
  rewrite (copy_one_ok _ _ _ _ mask_content);
    cbn [file_contents directories]; rewrite ?Htm;
    [|by rewrite lookup_insert_ne|done|exact Hfresh].
  cbn. eexists. split; [reflexivity|]. cbn. apply lookup_insert_eq.
Qed.



End ReshufflerFacts.

Lemma reshuffle_locations_witness :
  let run := reshuffle resolve_example split_distinct_example "out"
                       disk_example in
  run = (run.1, Ret [("train", [PathPair "/out/train/1.npy"
                                         "/out/train/m1.npy"]);
                     ("dev", [])]) ∧
  map fst [("train", [PathPair "/out/train/1.npy" "/out/train/m1.npy"]);
           ("dev", @nil path_pair)]
  = map fst split_distinct_example.
Proof.
  intros run.
  assert (Hrun : run = (run.1,
            Ret [("train", [PathPair "/out/train/1.npy" "/out/train/m1.npy"]);
                 ("dev", [])])) by reflexivity.
  split; [exact Hrun|].
  exact (proj1 (proj2 (reshuffle_locations resolve_example
           split_distinct_example "out" disk_example _ _ Hrun))).
Defined.

Lemma reshuffle_frame_witness :
  let run := reshuffle resolve_example split_missing_example "out"
                       disk_example in
  run.2 = Raise (FileNotFoundError "imgs/9.npy") ∧
  (∀ path, is_Some (file_contents disk_example !! path) →
           is_Some (file_contents run.1 !! path)).
Proof.
  intros run. split; [reflexivity|].
  exact (proj1 (proj2 (reshuffle_frame resolve_example split_missing_example
           "out" disk_example run.1 run.2 (surjective_pairing run)))).
Defined.

Lemma reshuffle_copies_witness :
  let run := reshuffle resolve_example split_distinct_example "out"
                       disk_example in
  NoDup (targets resolve_example "out" (flat_sources split_distinct_example)) ∧
  file_contents run.1 !! "/out/train/m1.npy" = Some "mask one".
Proof.
  intros run.
  assert (Hnd : NoDup (targets resolve_example "out"
                         (flat_sources split_distinct_example))).
  { apply (bool_decide_unpack _). by vm_compute. }
  assert (Hsrc : Forall (fun ks => resolve_example [ks.2]
                    ∉ targets resolve_example "out"
                        (flat_sources split_distinct_example))
                   (flat_sources split_distinct_example)).
  { apply (bool_decide_unpack _). by vm_compute. }
  assert (Hrun : run = (run.1,
            Ret [("train", [PathPair "/out/train/1.npy" "/out/train/m1.npy"]);
                 ("dev", [])])) by reflexivity.
  split; [exact Hnd|].
  pose proof (proj1 (reshuffle_copies resolve_example split_distinct_example
                "out" disk_example _ _ Hrun Hnd Hsrc)) as Hall.
  apply Forall_cons in Hall as [_ Hall].
  apply Forall_cons in Hall as [[_ Hm] _].
  exact Hm.
Defined.

Lemma reshuffle_same_basename_witness :
  OsPath.basename "imgs/0.npy" = OsPath.basename "masks/0.npy" ∧
  ∃ fs',
    reshuffle resolve_example split_collision_example "out" disk_example
    = (fs', Ret [("train", [PathPair "/out/train/0.npy"
                                     "/out/train/0.npy"])]) ∧
    file_contents fs' !! "/out/train/0.npy" = Some "mask bytes".
Proof.
  split; [reflexivity|].
  refine (reshuffle_same_basename resolve_example "train"
            (PathPair "imgs/0.npy" "masks/0.npy") "out" disk_example
            "image bytes" "mask bytes" eq_refl eq_refl eq_refl _ _ _ _ eq_refl).
  - discriminate.
  - discriminate.
  - apply not_elem_of_empty.
  - discriminate.
Defined.


(** ** The file variant of the pipeline *)

